(** * Verification of the ChainConnector socket pool and the EVM RPC helpers

    Shallow embedding of
    - [packages/chain-connector/src/ChainConnector.ts] (the socket pool:
      [connectChainSocket], [disconnectChainSocket], [addSocketUser],
      [removeSocketUser], [getExclusiveRandomId], [send], [subscribe]);
    - [packages/chain-connector-evm/src/util.ts] ([resolveRpcUrl],
      [isHealthyRpc], [getHealthyRpc], [isUnhealthyRpcError], and the [send]
      of [StandardRpcProvider] and [BatchRpcProvider]).

    The private fields of a [ChainConnector] instance are JS objects used as
    maps keyed by chain id; they are modelled as stdpp [gmap string _].
    Effects that leave the instance (constructing a [WsProvider], calling
    [disconnect], [setInterval] / [clearInterval], logging) are recorded as a
    list of [Event]s produced next to the new state. *)

From Stdlib Require Import QArith Qround ZArith Ascii String.
From stdpp Require Import base gmap strings list.

Open Scope Z_scope.

(* ------------------------------------------------------------------ *)
(** ** Data model *)

(** [type SocketUserId = number] *)
Abbreviation SocketUserId := Z (only parsing).

(** An rpc entry of a chaindata chain: [{ url, isHealthy }]. *)
Record ChainRpc := { url : string; isHealthy : bool }.

(** A chaindata chain; only [rpcs] is read ([chain.rpcs || []]). *)
Record Chain := { rpcs : option (list ChainRpc) }.

(** A [WsProvider] object; [ws_id] tells apart the objects constructed with
    [new WsProvider(rpcs, autoConnectMs)]. *)
Record WsProvider := {
  ws_id : nat;
  ws_endpoints : list string;
  ws_autoConnectMs : Z
}.

(** The private state of a [ChainConnector]:
    [#socketConnections], [#socketKeepAliveIntervals], [#socketUsers],
    plus the healthcheck set-up tasks that wait for [ws.isReady] and the
    counters that produce fresh provider objects and interval handles. *)
Record ChainConnector := {
  socketConnections : gmap string WsProvider;
  socketKeepAliveIntervals : gmap string nat;
  socketUsers : gmap string (list SocketUserId);
  pendingHealthchecks : list (string * WsProvider);
  nextWsId : nat;
  nextTimer : nat
}.

Definition emptyConnector : ChainConnector :=
  {| socketConnections := ∅; socketKeepAliveIntervals := ∅; socketUsers := ∅;
     pendingHealthchecks := []; nextWsId := 0; nextTimer := 0 |}.

Definition set_socketConnections (m : gmap string WsProvider) (s : ChainConnector) :=
  {| socketConnections := m; socketKeepAliveIntervals := socketKeepAliveIntervals s;
     socketUsers := socketUsers s; pendingHealthchecks := pendingHealthchecks s;
     nextWsId := nextWsId s; nextTimer := nextTimer s |}.

Definition set_socketKeepAliveIntervals (m : gmap string nat) (s : ChainConnector) :=
  {| socketConnections := socketConnections s; socketKeepAliveIntervals := m;
     socketUsers := socketUsers s; pendingHealthchecks := pendingHealthchecks s;
     nextWsId := nextWsId s; nextTimer := nextTimer s |}.

Definition set_socketUsers (m : gmap string (list SocketUserId)) (s : ChainConnector) :=
  {| socketConnections := socketConnections s;
     socketKeepAliveIntervals := socketKeepAliveIntervals s;
     socketUsers := m; pendingHealthchecks := pendingHealthchecks s;
     nextWsId := nextWsId s; nextTimer := nextTimer s |}.

Definition set_pendingHealthchecks (p : list (string * WsProvider)) (s : ChainConnector) :=
  {| socketConnections := socketConnections s;
     socketKeepAliveIntervals := socketKeepAliveIntervals s;
     socketUsers := socketUsers s; pendingHealthchecks := p;
     nextWsId := nextWsId s; nextTimer := nextTimer s |}.

Definition set_nextWsId (n : nat) (s : ChainConnector) :=
  {| socketConnections := socketConnections s;
     socketKeepAliveIntervals := socketKeepAliveIntervals s;
     socketUsers := socketUsers s; pendingHealthchecks := pendingHealthchecks s;
     nextWsId := n; nextTimer := nextTimer s |}.

Definition set_nextTimer (n : nat) (s : ChainConnector) :=
  {| socketConnections := socketConnections s;
     socketKeepAliveIntervals := socketKeepAliveIntervals s;
     socketUsers := socketUsers s; pendingHealthchecks := pendingHealthchecks s;
     nextWsId := nextWsId s; nextTimer := n |}.

(** Observable effects. [UserAdded] / [UserRemoved] mark the [push] and the
    [splice] on [#socketUsers[chainId]]. *)
Inductive Event :=
| NewWsProvider (chainId : string) (ws : WsProvider)
| Disconnect (chainId : string) (ws : WsProvider)
| SetInterval (chainId : string) (timer : nat)
| ClearInterval (timer : option nat)
| UserAdded (chainId : string) (id : SocketUserId)
| UserRemoved (chainId : string) (id : SocketUserId)
| LogWarn (msg : string)
| LogError (msg : string).

(** Exceptions thrown to the caller. *)
Inductive Exn :=
| ChainNotFound (chainId : string)          (* `Chain ${chainId} not found in store` *)
| NoHealthyRpcs (chainId : string)          (* `No healthy RPCs available for chain ${chainId}` *)
| WsProviderError                           (* thrown by `new WsProvider(...)` *)
| UserNotInList (chainId : string) (id : SocketUserId) (* `Can't remove user ...` *)
| TypeErrorUndefined                        (* property read on `undefined` *)
| RpcError (msg : string).                  (* rejection of ws.send / subscribe / unsubscribe *)

(* ------------------------------------------------------------------ *)
(** ** A state / event / exception monad

    [None] stands for a computation that does not terminate (the
    generate-and-check loop of [getExclusiveRandomId] when the random draws
    given to it never leave the exclude list).  An exception keeps the state
    reached so far: JS mutations done before a [throw] persist. *)

Definition M (A : Type) : Type :=
  ChainConnector -> option (ChainConnector * list Event * (Exn + A)).

Definition ret {A} (a : A) : M A := fun s => Some (s, [], inr a).
Definition throw {A} (e : Exn) : M A := fun s => Some (s, [], inl e).
Definition diverge {A} : M A := fun _ => None.
Definition get : M ChainConnector := fun s => Some (s, [], inr s).
Definition modify (f : ChainConnector -> ChainConnector) : M unit :=
  fun s => Some (f s, [], inr tt).
Definition emit (e : Event) : M unit := fun s => Some (s, [e], inr tt).

Definition bind {A B} (m : M A) (k : A -> M B) : M B := fun s =>
  match m s with
  | None => None
  | Some (s1, ev1, inl e) => Some (s1, ev1, inl e)
  | Some (s1, ev1, inr a) =>
      match k a s1 with
      | None => None
      | Some (s2, ev2, r) => Some (s2, ev1 ++ ev2, r)
      end
  end.

(** [try { m } catch (e) { h(e) }] *)
Definition catch {A} (m : M A) (h : Exn -> M A) : M A := fun s =>
  match m s with
  | None => None
  | Some (s1, ev1, inl e) =>
      match h e s1 with
      | None => None
      | Some (s2, ev2, r) => Some (s2, ev1 ++ ev2, r)
      end
  | Some (s1, ev1, inr a) => Some (s1, ev1, inr a)
  end.

Notation "'let*' p ':=' m 'in' k" := (bind m (fun p => k))
  (at level 200, p pattern, m at level 100, k at level 200).

(* ------------------------------------------------------------------ *)
(** ** Numbers: IEEE 754 binary64 rounding *)

(** [num / den] (den > 0) rounded to an integer, ties to even. *)
Definition roundHalfEven (num den : Z) : Z :=
  let q := num / den in
  let r := num mod den in
  if (den <? 2 * r) || ((2 * r =? den) && Z.odd q) then q + 1 else q.

(** The exponent [e] of [a / b] (a, b > 0): [2^e <= a / b < 2^(e+1)]. *)
Definition floorLog2Q (a b : Z) : Z :=
  let e := Z.log2 a - Z.log2 b in
  if (if 0 <=? e then b * 2 ^ e <=? a else b <=? a * 2 ^ (- e)) then e else e - 1.

(** The double nearest to [a / b] (a, b > 0), ties to even, as [(m, k)] for
    the value [m * 2^k]: 53 significant bits, and the unit [2^k] at least
    [2^-1074] (subnormals). Only magnitudes below [2^1024] are finite. *)
Definition roundPos64 (a b : Z) : Z * Z :=
  let k := Z.max (floorLog2Q a b - 52) (-1074) in
  if 0 <=? k then (roundHalfEven a (b * 2 ^ k), k)
  else (roundHalfEven (a * 2 ^ (- k)) b, k).

(** The double nearest to [x] (round to nearest, ties to even), as [(m, k)]
    for [m * 2^k]. *)
Definition roundBinary64 (x : Q) : Z * Z :=
  let a := Qnum x in
  let b := Zpos (Qden x) in
  if a =? 0 then (0, 0)
  else if a <? 0 then let '(m, k) := roundPos64 (- a) b in (- m, k)
  else roundPos64 a b.

(** [Math.trunc] of the number [m * 2^k]. *)
Definition mathTrunc (mk : Z * Z) : Z :=
  let '(m, k) := mk in
  if m <? 0 then - Z.shiftr (- m) (- k) else Z.shiftr m (- k).

(** The values [Math.random()] returns: the doubles in [0, 1), that is
    [m / 2^E] with a 53-bit [m] and [0 <= E <= 1074], below 1. *)
Definition mathRandomValue (r : Q) : Prop :=
  (0 <= r)%Q /\ (r < 1)%Q /\
  exists m E, 0 <= m < 2 ^ 53 /\ 0 <= E <= 1074 /\ (r * inject_Z (2 ^ E) == inject_Z m)%Q.

(* ------------------------------------------------------------------ *)
(** ** Socket users: random ids and the per-chain user list *)

(** [getRandomId]: [Math.trunc(Math.random() * Math.pow(10, 8))]; [r] is the
    value returned by [Math.random()], taken as a rational.
    [Math.pow(10, 8)] is the double 100000000; the product is rounded to the
    nearest double before [Math.trunc]. *)
Definition getRandomId (r : Q) : Z := mathTrunc (roundBinary64 (r * inject_Z (10 ^ 8))).

(** [exclude.includes(id)] on numbers. *)
Definition includes (exclude : list Z) (id : Z) : bool :=
  existsb (Z.eqb id) exclude.

(** [getExclusiveRandomId]: the [while] loop draws a new random number as
    long as the current one is in [exclude]. [draws] are the successive
    values of [Math.random()]; [None] when they run out inside the loop. *)
Fixpoint getExclusiveRandomId (draws : list Q) (exclude : list Z) : option Z :=
  match draws with
  | [] => None
  | r :: rest =>
      let id := getRandomId r in
      if includes exclude id then getExclusiveRandomId rest exclude else Some id
  end.

(** [Array.prototype.indexOf] on numbers: [None] stands for [-1]. *)
Fixpoint indexOf (x : Z) (l : list Z) : option nat :=
  match l with
  | [] => None
  | y :: l' =>
      if Z.eqb x y then Some 0%nat
      else match indexOf x l' with Some i => Some (S i) | None => None end
  end.

(** [l.splice(i, 1)] *)
Definition splice1 (l : list Z) (i : nat) : list Z := take i l ++ drop (S i) l.

(** [this.#socketUsers[chainId]] read as an array, [undefined] as [None]. *)
Definition usersOf (s : ChainConnector) (chainId : string) : option (list Z) :=
  socketUsers s !! chainId.

(** [addSocketUser] *)
Definition addSocketUser (draws : list Q) (chainId : string) : M SocketUserId :=
  let* s := get in
  (* if (!Array.isArray(this.#socketUsers[chainId])) this.#socketUsers[chainId] = [] *)
  let users := match usersOf s chainId with Some l => l | None => [] end in
  match getExclusiveRandomId draws users with
  | None => diverge
  | Some socketUserId =>
      let* _ := modify (set_socketUsers (<[chainId := users ++ [socketUserId]]> (socketUsers s))) in
      let* _ := emit (UserAdded chainId socketUserId) in
      ret socketUserId
  end.

(** [removeSocketUser] *)
Definition removeSocketUser (chainId : string) (socketUserId : SocketUserId) : M unit :=
  let* s := get in
  match usersOf s chainId with
  | None => throw TypeErrorUndefined          (* undefined.indexOf(...) *)
  | Some users =>
      match indexOf socketUserId users with
      | None => throw (UserNotInList chainId socketUserId)
      | Some userIndex =>
          let* _ := modify (set_socketUsers
                              (<[chainId := splice1 users userIndex]> (socketUsers s))) in
          emit (UserRemoved chainId socketUserId)
      end
  end.

(* ------------------------------------------------------------------ *)
(** ** connectChainSocket / disconnectChainSocket *)

(** [healthyRpcs ++ unhealthyRpcs] built from [chain.rpcs || []]. *)
Definition sortedRpcUrls (chainRpcs : list ChainRpc) : list string :=
  let healthyRpcs := map url (List.filter (fun r => isHealthy r) chainRpcs) in
  let unhealthyRpcs := map url (List.filter (fun r => negb (isHealthy r)) chainRpcs) in
  healthyRpcs ++ unhealthyRpcs.

Section Connector.

(** Whether [new WsProvider(endpoints, autoConnectMs)] returns (true) or
    throws (false): the constructor belongs to [@polkadot/rpc-provider]. *)
Variable wsProviderAccepts : list string -> bool.

(** [new WsProvider(rpcs, autoConnectMs)] stored in
    [this.#socketConnections[chainId]]. *)
Definition newWsProvider (chainId : string) (rpcs : list string) (autoConnectMs : Z)
  : M WsProvider :=
  if wsProviderAccepts rpcs then
    let* s := get in
    let ws := {| ws_id := nextWsId s; ws_endpoints := rpcs; ws_autoConnectMs := autoConnectMs |} in
    let* _ := modify (set_nextWsId (S (nextWsId s))) in
    let* _ := modify (fun s => set_socketConnections (<[chainId := ws]> (socketConnections s)) s) in
    let* _ := emit (NewWsProvider chainId ws) in
    ret ws
  else throw WsProviderError.

(** [connectChainSocket]. [chain] is the value the awaited
    [getChain(chainId)] resolved to; [draws] are the values of
    [Math.random()] used by [addSocketUser]. The healthcheck IIFE runs
    synchronously up to [await ws.isReady]: it is recorded as a pending task
    and resumed by [healthcheckReady]. *)
Definition connectChainSocket (chainId : string) (chain : option Chain) (draws : list Q)
  : M (SocketUserId * WsProvider) :=
  match chain with
  | None => throw (ChainNotFound chainId)
  | Some ch =>
      let* socketUserId := addSocketUser draws chainId in
      let* s := get in
      match socketConnections s !! chainId with
      | Some ws => ret (socketUserId, ws)
      | None =>
          let autoConnectMs := 1000 in
          let* ws := catch
            (let rpcs := sortedRpcUrls (match rpcs ch with Some l => l | None => [] end) in
             match rpcs with
             | [] => throw (NoHealthyRpcs chainId)
             | _ :: _ => newWsProvider chainId rpcs autoConnectMs
             end)
            (fun e => let* _ := emit (LogError "connectChainSocket") in throw e) in
          let* _ := modify (fun s => set_pendingHealthchecks
                                       (pendingHealthchecks s ++ [(chainId, ws)]) s) in
          ret (socketUserId, ws)
      end
  end.

End Connector.

(** The rest of the healthcheck IIFE, once [ws.isReady] has resolved:
    clear a previous interval if any, then [setInterval(...)]. *)
Definition healthcheckReady (chainId : string) : M unit :=
  let* s := get in
  let* _ := match socketKeepAliveIntervals s !! chainId with
            | Some t => emit (ClearInterval (Some t))
            | None => ret tt
            end in
  let* s := get in
  let timer := nextTimer s in
  let* _ := modify (fun s => set_nextTimer (S timer)
                      (set_socketKeepAliveIntervals
                         (<[chainId := timer]> (socketKeepAliveIntervals s)) s)) in
  emit (SetInterval chainId timer).

(** [disconnectChainSocket] *)
Definition disconnectChainSocket (chainId : string) (socketUserId : SocketUserId) : M unit :=
  let* _ := removeSocketUser chainId socketUserId in
  let* s := get in
  let users := match usersOf s chainId with Some l => l | None => [] end in
  if Nat.ltb 0 (length users) then ret tt
  else
    match socketConnections s !! chainId with
    | None => emit (LogWarn "Failed to disconnect socket: socket not found")
    | Some ws =>
        (* ws.disconnect() is async: it does not throw synchronously *)
        let* _ := emit (Disconnect chainId ws) in
        let* _ := modify (fun s => set_socketConnections
                                     (delete chainId (socketConnections s)) s) in
        let* s := get in
        let* _ := emit (ClearInterval (socketKeepAliveIntervals s !! chainId)) in
        modify (fun s => set_socketKeepAliveIntervals
                           (delete chainId (socketKeepAliveIntervals s)) s)
    end.

(* ------------------------------------------------------------------ *)
(** ** send / subscribe *)

Section Requests.

Variable wsProviderAccepts : list string -> bool.

(** [send]: [response] is how the awaited [ws.send(method, params, isCacheable)]
    settles (a rejection with an error, or a value). [waitForWs] only waits
    and touches no state. *)
Definition send {T} (chainId : string) (chain : option Chain) (draws : list Q)
  (response : Exn + T) : M T :=
  let* conn := connectChainSocket wsProviderAccepts chainId chain draws in
  let (socketUserId, ws) := conn in
  match response with
  | inl error =>
      let* _ := emit (LogError "Failed to send") in
      let* _ := disconnectChainSocket chainId socketUserId in
      throw error
  | inr response =>
      let* _ := disconnectChainSocket chainId socketUserId in
      ret response
  end.

(** The [unsubscribe] closure returned by [subscribe], with the variables
    it captures. *)
Record Unsubscribe := {
  unsub_chainId : string;
  unsub_socketUserId : SocketUserId;
  unsub_ws : WsProvider;
  unsub_subscriptionId : string
}.

(** [subscribe]: [subscribed] is how [ws.subscribe(...)] settles. *)
Definition subscribe (chainId : string) (chain : option Chain) (draws : list Q)
  (subscribed : Exn + string) : M Unsubscribe :=
  let* conn := connectChainSocket wsProviderAccepts chainId chain draws in
  let (socketUserId, ws) := conn in
  match subscribed with
  | inl error =>
      let* _ := disconnectChainSocket chainId socketUserId in
      throw error
  | inr subscriptionId =>
      ret {| unsub_chainId := chainId; unsub_socketUserId := socketUserId;
             unsub_ws := ws; unsub_subscriptionId := subscriptionId |}
  end.

End Requests.

(** Calling the closure: [await ws.unsubscribe(...)] settles as [acked],
    then [await this.disconnectChainSocket(chainId, socketUserId)]. *)
Definition runUnsubscribe (u : Unsubscribe) (acked : Exn + bool) : M unit :=
  match acked with
  | inl error => throw error
  | inr _ => disconnectChainSocket (unsub_chainId u) (unsub_socketUserId u)
  end.

(* ------------------------------------------------------------------ *)
(** ** Interleavings

    Every await of the code sits outside the synchronous segments below, so
    any interleaving of concurrent callers is a sequence of these steps:
    the part of [connectChainSocket] after [getChain] resolved, a whole
    [disconnectChainSocket], and the resumption of a pending healthcheck
    set-up. [send], [subscribe] and the unsubscribe closure are built from
    the first two. The trace collects the events. *)

Inductive Reachable (wsProviderAccepts : list string -> bool)
  : ChainConnector -> list Event -> Prop :=
| reach_init : Reachable wsProviderAccepts emptyConnector []
| reach_connect s tr chainId chain draws s' ev r :
    Reachable wsProviderAccepts s tr ->
    connectChainSocket wsProviderAccepts chainId chain draws s = Some (s', ev, r) ->
    Reachable wsProviderAccepts s' (tr ++ ev)
| reach_disconnect s tr chainId socketUserId s' ev r :
    Reachable wsProviderAccepts s tr ->
    disconnectChainSocket chainId socketUserId s = Some (s', ev, r) ->
    Reachable wsProviderAccepts s' (tr ++ ev)
| reach_healthcheck s tr i chainId ws s' ev r :
    Reachable wsProviderAccepts s tr ->
    pendingHealthchecks s !! i = Some (chainId, ws) ->
    healthcheckReady chainId
      (set_pendingHealthchecks (delete i (pendingHealthchecks s)) s) = Some (s', ev, r) ->
    Reachable wsProviderAccepts s' (tr ++ ev).

(** Number of providers constructed for, and disconnected from, a chain. *)
Definition isNewWsProvider (chainId : string) (e : Event) : bool :=
  match e with NewWsProvider c _ => bool_decide (c = chainId) | _ => false end.
Definition isDisconnect (chainId : string) (e : Event) : bool :=
  match e with Disconnect c _ => bool_decide (c = chainId) | _ => false end.

Definition constructedFor (chainId : string) (tr : list Event) : nat :=
  length (List.filter (isNewWsProvider chainId) tr).
Definition disconnectedFor (chainId : string) (tr : list Event) : nat :=
  length (List.filter (isDisconnect chainId) tr).

(** Providers of a chain constructed and not yet disconnected. *)
Definition liveProviders (chainId : string) (tr : list Event) : nat :=
  constructedFor chainId tr - disconnectedFor chainId tr.

(* A provider that accepts every endpoint list, and the check done by the
   polkadot WsProvider constructor (every endpoint is a ws:// or wss:// url). *)
Definition acceptAll (_ : list string) : bool := true.
Definition wsUrlCheck (endpoints : list string) : bool :=
  bool_decide (endpoints <> []) &&
  forallb (fun u => String.prefix "ws://" u || String.prefix "wss://" u) endpoints.

Definition polkadot : Chain :=
  {| rpcs := Some [ {| url := "wss://a"; isHealthy := false |};
                    {| url := "wss://b"; isHealthy := true |};
                    {| url := "wss://c"; isHealthy := true |};
                    {| url := "wss://d"; isHealthy := false |} ] |}.

Example ex_sorted : sortedRpcUrls (default [] (rpcs polkadot)) = ["wss://b"; "wss://c"; "wss://a"; "wss://d"].
Proof. reflexivity. Qed.

Example ex_connect :
  match connectChainSocket wsUrlCheck "polkadot" (Some polkadot) [1/2]%Q emptyConnector with
  | Some (s, ev, inr (id, ws)) => id = 50000000 /\ ws_endpoints ws = ["wss://b"; "wss://c"; "wss://a"; "wss://d"]
  | _ => False
  end.
Proof. vm_compute. split; reflexivity. Qed.

(* ------------------------------------------------------------------ *)
(** ** Running the monadic code symbolically *)

Definition present {V} (o : option V) : nat := match o with Some _ => 1 | None => 0 end.

Ltac run_hyps :=
  repeat match goal with
  | H : context [match ?x with _ => _ end] |- _ => destruct x eqn:?
  | H : Some _ = Some _ |- _ => injection H as; subst
  | H : None = Some _ |- _ => discriminate H
  | H : (_, _) = (_, _) |- _ => injection H as; subst
  | H : inl _ = inr _ |- _ => discriminate H
  | H : inr _ = inl _ |- _ => discriminate H
  end.

Ltac unfold_monad :=
  unfold bind, catch, ret, throw, diverge, get, modify, emit in *.


(* ------------------------------------------------------------------ *)
(** ** chain-connector-evm: isHealthyRpc / getHealthyRpc *)

(** JS white space accepted by [parseInt] in front of the number (the ASCII
    part: tab, line feed, vertical tab, form feed, carriage return, space). *)
Definition isJsSpace (a : Ascii.ascii) : bool :=
  let n := Ascii.nat_of_ascii a in
  Nat.eqb n 32 || (Nat.leb 9 n && Nat.leb n 13).

Fixpoint trimStart (s : string) : string :=
  match s with
  | String a rest => if isJsSpace a then trimStart rest else s
  | EmptyString => EmptyString
  end.

Definition hexDigit (a : Ascii.ascii) : option Z :=
  let n := Z.of_nat (Ascii.nat_of_ascii a) in
  if (48 <=? n) && (n <=? 57) then Some (n - 48)          (* 0-9 *)
  else if (97 <=? n) && (n <=? 102) then Some (n - 87)    (* a-f *)
  else if (65 <=? n) && (n <=? 70) then Some (n - 55)     (* A-F *)
  else None.

(** Value of the longest prefix of hex digits, accumulated onto [acc]. *)
Fixpoint hexPrefix (s : string) (acc : Z) : Z :=
  match s with
  | String a rest =>
      match hexDigit a with Some d => hexPrefix rest (acc * 16 + d) | None => acc end
  | EmptyString => acc
  end.

(** The mathematical value read by [parseInt(s, 16)]; [None] when it gives
    [NaN]. Leading white space, one sign, an optional [0x] / [0X] prefix,
    then the longest run of hex digits (at least one). *)
Definition parseIntMath16 (s : string) : option Z :=
  let s := trimStart s in
  let '(sign, s) := match s with
                    | String "-"%char rest => (-1, rest)
                    | String "+"%char rest => (1, rest)
                    | _ => (1, s)
                    end in
  let s := match s with
           | String "0"%char (String x rest) =>
               if Ascii.eqb x "x"%char || Ascii.eqb x "X"%char then rest else s
           | _ => s
           end in
  match s with
  | String a _ =>
      match hexDigit a with
      | Some _ => Some (sign * hexPrefix s 0)
      | None => None
      end
  | EmptyString => None
  end.

(** A JS number with an integer value: [NaN], an infinity, or finite. *)
Inductive NumberValue :=
| NaN
| Infinity (negative : bool)
| Finite (v : Z).

(** The number for the integer [n]: [n] rounded to the nearest double, an
    infinity when that reaches [2^1024]. *)
Definition numberOfInteger (n : Z) : NumberValue :=
  let '(m, k) := roundBinary64 (inject_Z n) in
  if 1024 <=? Z.log2 (Z.abs m) + k then Infinity (m <? 0) else Finite (mathTrunc (m, k)).

(** [parseInt(s, 16)]: the value read, as a number. *)
Definition parseInt16 (s : string) : NumberValue :=
  match parseIntMath16 s with
  | Some n => numberOfInteger n
  | None => NaN
  end.

Example ex_parseInt16 :
  parseInt16 "0x5" = Finite 5 /\ parseInt16 "0x2a" = Finite 42 /\ parseInt16 "  0X1f" = Finite 31 /\
  parseInt16 "xyz" = NaN /\ parseInt16 "0x" = NaN /\
  parseInt16 "0x20000000000001" = Finite (2 ^ 53) /\
  parseInt16 "0x20000000000003" = Finite (2 ^ 53 + 4).
Proof. repeat split; vm_compute; reflexivity. Qed.

(** How the race between [provider.send("eth_chainId", [])] and
    [throwAfter(RPC_HEALTHCHECK_TIMEOUT)] settles for an endpoint: the
    endpoint answers first with a chain id, the timer rejects first, or the
    provider construction or the request throws. *)
Inductive ProbeOutcome :=
| Answered (rpcChainId : string)
| TimedOut
| Threw.

Section Evm.

(** The network: how the probe of [url] for [chainId] settles. *)
Variable probe : string -> Z -> ProbeOutcome.

(** [isHealthyRpc]: every exception is caught, logged and mapped to false. *)
Definition isHealthyRpc (url : string) (chainId : Z) : bool :=
  match probe url chainId with
  | Answered rpcChainId =>
      (* parseInt(rpcChainId, 16) === chainId; NaN and the infinities equal
         no chain id *)
      match parseInt16 rpcChainId with Finite v => Z.eqb v chainId | _ => false end
  | TimedOut | Threw => false
  end.

(** [getHealthyRpc]: the urls probed, in order, and the value returned
    ([null] is [None]). *)
Fixpoint getHealthyRpc (rpcUrls : list string) (chainId : Z) : list string * option string :=
  match rpcUrls with
  | [] => ([], None)
  | rpcUrl :: rest =>
      if isHealthyRpc rpcUrl chainId then ([rpcUrl], Some rpcUrl)
      else let '(probed, found) := getHealthyRpc rest chainId in (rpcUrl :: probed, found)
  end.

End Evm.

(* ------------------------------------------------------------------ *)
(** ** chain-connector-evm: isUnhealthyRpcError *)

(** A thrown JS value. Objects are given by their own properties; no
    prototype of the values below has a property named [reason]. *)
Local Set Warnings "-register-all".
Inductive JsValue :=
| JsUndefined
| JsNull
| JsBool (b : bool)
| JsNumber (n : Z)
| JsString (s : string)
| JsObject (props : list (string * JsValue)).

(** [err.reason]: a TypeError on [undefined] and [null]. *)
Definition readReason (err : JsValue) : Exn + JsValue :=
  match err with
  | JsUndefined | JsNull => inl TypeErrorUndefined
  | JsObject props =>
      inr (match List.find (fun kv => String.eqb kv.1 "reason") props with
           | Some kv => kv.2
           | None => JsUndefined
           end)
  | _ => inr JsUndefined
  end.

(** [[...strings].includes(v)] (SameValueZero against string elements). *)
Definition includesString (arr : list string) (v : JsValue) : bool :=
  match v with
  | JsString s => existsb (String.eqb s) arr
  | _ => false
  end.

(** [isUnhealthyRpcError] *)
Definition isUnhealthyRpcError (err : JsValue) : Exn + bool :=
  match readReason err with
  | inl e => inl e
  | inr reason =>
      if includesString ["processing response error"] reason then inr false else inr true
  end.

(* ------------------------------------------------------------------ *)
(** ** Concrete runs *)

(** The state and the events a run ends with. *)
Definition finalOf {A} (o : option (ChainConnector * list Event * (Exn + A)))
  : ChainConnector * list Event :=
  match o with Some (s, ev, _) => (s, ev) | None => (emptyConnector, []) end.

(** The result a run ends with. *)
Definition resultOf {A} (o : option (ChainConnector * list Event * (Exn + A)))
  : option (Exn + A) :=
  match o with Some (_, _, r) => Some r | None => None end.

(** One caller acquires "polkadot" on a fresh connector. *)
Definition afterFirstConnect : ChainConnector * list Event :=
  finalOf (connectChainSocket acceptAll "polkadot" (Some polkadot) [1/2]%Q emptyConnector).

(** That caller then releases its user. *)
Definition afterOneRelease : ChainConnector * list Event :=
  finalOf (disconnectChainSocket "polkadot" 50000000 afterFirstConnect.1).

(** The provider the first run constructs. *)
Definition polkadotWs : WsProvider :=
  {| ws_id := 0; ws_endpoints := ["wss://b"; "wss://c"; "wss://a"; "wss://d"];
     ws_autoConnectMs := 1000 |}.

(** Probes of three EVM rpcs for chain 5: only "u2" answers [0x5] in time. *)
Definition chain5Probe (url : string) (_ : Z) : ProbeOutcome :=
  if String.eqb url "u1" then TimedOut
  else if String.eqb url "u2" then Answered "0x5"
  else Answered "0x1".

(** A chain whose chaindata entry lists no rpc. *)
Definition noRpcChain : Chain := {| rpcs := Some [] |}.

(** A chain whose only rpc is flagged unhealthy. *)
Definition unhealthyOnlyChain : Chain :=
  {| rpcs := Some [ {| url := "wss://a"; isHealthy := false |} ] |}.

(** A chain whose only rpc is not a websocket url. *)
Definition httpOnlyChain : Chain :=
  {| rpcs := Some [ {| url := "https://a"; isHealthy := true |} ] |}.

(** Removals of user [id] of [chainId] among the events. *)
Definition isUserRemoved (chainId : string) (id : SocketUserId) (e : Event) : bool :=
  match e with UserRemoved c i => bool_decide (c = chainId) && Z.eqb i id | _ => false end.

(* ------------------------------------------------------------------ *)
(** ** chain-connector-evm: resolveRpcUrl *)

(** The character class [[A-z-]]: the code units from 'A' (65) to 'z' (122),
    which include [ [ \ ] ^ _ ` ] between 'Z' and 'a', and '-'. *)
Definition inClassAz (a : Ascii.ascii) : bool :=
  let n := Ascii.nat_of_ascii a in
  (Nat.leb 65 n && Nat.leb n 122) || Nat.eqb n 45.

(** [s] with the prefix [p] removed, if [s] starts with [p]. *)
Fixpoint stripPrefix (p s : string) : option string :=
  match p, s with
  | EmptyString, _ => Some s
  | String a p', String b s' => if Ascii.eqb a b then stripPrefix p' s' else None
  | String _ _, EmptyString => None
  end.

(** The longest prefix of characters of [[A-z-]], and the rest. *)
Fixpoint spanClass (s : string) : string * string :=
  match s with
  | String a rest =>
      if inClassAz a then let (g, r) := spanClass rest in (String a g, r) else (EmptyString, s)
  | EmptyString => (EmptyString, EmptyString)
  end.

(** A match of [/^https:\/\/([A-z-]+)\.api\.onfinality\.io\/<path>\/?$/]
    against [s], giving the capture group. The group can only end before
    the '.' that follows it, which is not in the class: the greedy run is the
    only candidate. *)
Definition matchOnfinality (path s : string) : option string :=
  match stripPrefix "https://" s with
  | None => None
  | Some t =>
      let (g, rest) := spanClass t in
      match g with
      | EmptyString => None
      | String _ _ =>
          if String.eqb rest (".api.onfinality.io/" ++ path) ||
             String.eqb rest (".api.onfinality.io/" ++ path ++ "/")
          then Some g else None
      end
  end%string.

Definition decimalDigit (a : Ascii.ascii) : option nat :=
  let n := Ascii.nat_of_ascii a in
  if Nat.leb 48 n && Nat.leb n 57 then Some (n - 48)%nat else None.

(** GetSubstitution for a match [matched] of a regular expression with one
    capture group [group1], the match covering the whole input (so [$`] and
    [$'] are empty), and no named groups. *)
Fixpoint getSubstitution (matched group1 : string) (t : string) : string :=
  match t with
  | EmptyString => EmptyString
  | String c rest =>
      if Ascii.eqb c "$" then
        match rest with
        | EmptyString => String "$" EmptyString
        | String c1 rest1 =>
            if Ascii.eqb c1 "$" then String "$" (getSubstitution matched group1 rest1)
            else if Ascii.eqb c1 "&" then (matched ++ getSubstitution matched group1 rest1)%string
            else if Ascii.eqb c1 "`" then getSubstitution matched group1 rest1
            else if Ascii.eqb c1 "'" then getSubstitution matched group1 rest1
            else match decimalDigit c1 with
                 | None => String "$" (getSubstitution matched group1 rest)
                 | Some d1 =>
                     let oneDigit :=
                       if Nat.eqb d1 1 then (group1 ++ getSubstitution matched group1 rest1)%string
                       else String "$" (getSubstitution matched group1 rest) in
                     match rest1 with
                     | String c2 rest2 =>
                         match decimalDigit c2 with
                         | Some d2 =>
                             let index := (10 * d1 + d2)%nat in
                             if Nat.eqb index 1
                             then (group1 ++ getSubstitution matched group1 rest2)%string
                             else if Nat.ltb 1 index then oneDigit   (* $nn > captures: one digit *)
                             else String "$" (getSubstitution matched group1 rest)   (* $00 *)
                         | None => oneDigit
                         end
                     | EmptyString => oneDigit
                     end
                 end
        end
      else String c (getSubstitution matched group1 rest)
  end.

(** [str.replace(regex, template)] for a regular expression without the
    [g] flag whose matches cover the whole input. *)
Definition replaceWhole (m : string -> option string) (template str : string) : string :=
  match m str with
  | Some group1 => getSubstitution str group1 template
  | None => str
  end.

Section Resolve.

(** [API_KEY_ONFINALITY] (from [./constants]). *)
Variable API_KEY_ONFINALITY : string.

(** [resolveRpcUrl] *)
Definition resolveRpcUrl (rpcUrl : string) : string :=
  replaceWhole (matchOnfinality "rpc")
    ("https://$1.api.onfinality.io/rpc?apikey=" ++ API_KEY_ONFINALITY)
    (replaceWhole (matchOnfinality "public-ws")
       ("https://$1.api.onfinality.io/ws?apikey=" ++ API_KEY_ONFINALITY) rpcUrl).

End Resolve.

(* ------------------------------------------------------------------ *)
(** ** chain-connector-evm: StandardRpcProvider.send / BatchRpcProvider.send *)

(** How a call settles: returns a value, or rejects with a thrown JS value
    or with an exception of the code itself. *)
Inductive SendOutcome :=
| Returned (v : JsValue)
| Rejected (err : JsValue)
| RejectedWith (e : Exn).

(** [send] of [StandardRpcProvider] and of [BatchRpcProvider] (the same
    body): [superSend] is how [super.send(method, params)] settles ([inl err]
    when it rejects with [err]). The result lists the values given to
    [this.emit("error", err)] (its listeners are taken to return normally)
    and how the call settles. *)
Definition rpcProviderSend (superSend : JsValue + JsValue) : list JsValue * SendOutcome :=
  match superSend with
  | inr v => ([], Returned v)
  | inl err =>
      match isUnhealthyRpcError err with
      | inl e => ([], RejectedWith e)          (* thrown inside the catch block *)
      | inr unhealthy => ((if unhealthy then [err] else []), Rejected err)
      end
  end.

(* ------------------------------------------------------------------ *)
(** ** Counting user list events *)

Definition isUserAdded (chainId : string) (e : Event) : bool :=
  match e with UserAdded c _ => bool_decide (c = chainId) | _ => false end.
Definition isUserRemovedFrom (chainId : string) (e : Event) : bool :=
  match e with UserRemoved c _ => bool_decide (c = chainId) | _ => false end.

Definition addedTo (chainId : string) (tr : list Event) : nat :=
  length (List.filter (isUserAdded chainId) tr).
Definition removedFrom (chainId : string) (tr : list Event) : nat :=
  length (List.filter (isUserRemovedFrom chainId) tr).

(** All characters of [s] satisfy [f]. *)
Fixpoint forallChars (f : Ascii.ascii -> bool) (s : string) : bool :=
  match s with
  | EmptyString => true
  | String a rest => f a && forallChars f rest
  end.

(** The pool invariant: a stored provider has users, and no user id is
    listed twice for a chain. *)
Definition PoolInv (s : ChainConnector) : Prop :=
  forall c,
    (forall ws, socketConnections s !! c = Some ws -> exists l, usersOf s c = Some l /\ l <> []) /\
    (forall l, usersOf s c = Some l -> NoDup l).

(** The intervals invariant: every interval set for a chain is still the
    stored one, or has been cleared. *)
Definition IntervalsInv (s : ChainConnector) (tr : list Event) : Prop :=
  forall c t, In (SetInterval c t) tr ->
    socketKeepAliveIntervals s !! c = Some t \/ In (ClearInterval (Some t)) tr.

(** The entries of chain [c] in the three maps are the same in [s] and [s']. *)
Definition sameChainEntries (c : string) (s s' : ChainConnector) : Prop :=
  socketConnections s' !! c = socketConnections s !! c /\
  socketKeepAliveIntervals s' !! c = socketKeepAliveIntervals s !! c /\
  usersOf s' c = usersOf s c.

(** A keepalive set-up resumed for "polkadot" after the first acquire. *)
Definition afterKeepAlive : ChainConnector * list Event :=
  finalOf (healthcheckReady "polkadot"
             (set_pendingHealthchecks (delete 0%nat (pendingHealthchecks afterFirstConnect.1))
                afterFirstConnect.1)).

Ltac count_tac :=
  unfold usersOf, addedTo, removedFrom in *; simpl in *;
  repeat match goal with
  | |- context [bool_decide (?a = ?b)] => case_bool_decide; subst
  end;
  repeat first [rewrite lookup_insert_eq | rewrite lookup_insert_ne by congruence]; simpl;
  try lia.

(* ================================================================== *)
(** * Theorems *)

Lemma connect_balanced acc chainId chain draws s s' ev r c :
  connectChainSocket acc chainId chain draws s = Some (s', ev, r) ->
  (constructedFor c ev + present (socketConnections s !! c)
   = present (socketConnections s' !! c) + disconnectedFor c ev)%nat.
Proof.
  intros H.
  unfold connectChainSocket, addSocketUser, newWsProvider in H; unfold_monad.
  run_hyps; unfold constructedFor, disconnectedFor; simpl in *.
  all: try lia.
  all: case_bool_decide; subst;
    [rewrite lookup_insert_eq, Heqo3 | rewrite lookup_insert_ne by congruence]; simpl; lia.
Qed.

Lemma disconnect_balanced chainId id s s' ev r c :
  disconnectChainSocket chainId id s = Some (s', ev, r) ->
  (constructedFor c ev + present (socketConnections s !! c)
   = present (socketConnections s' !! c) + disconnectedFor c ev)%nat.
Proof.
  intros H.
  unfold disconnectChainSocket, removeSocketUser in H; unfold_monad.
  run_hyps; unfold constructedFor, disconnectedFor; simpl in *.
  all: try lia.
  all: case_bool_decide; subst;
    [rewrite lookup_delete_eq, Heqo2 | rewrite lookup_delete_ne by congruence]; simpl; lia.
Qed.

Lemma healthcheck_balanced chainId s s' ev r c :
  healthcheckReady chainId s = Some (s', ev, r) ->
  (constructedFor c ev + present (socketConnections s !! c)
   = present (socketConnections s' !! c) + disconnectedFor c ev)%nat.
Proof.
  intros H.
  unfold healthcheckReady in H; unfold_monad.
  run_hyps; unfold constructedFor, disconnectedFor; simpl in *; lia.
Qed.

Lemma getExclusiveRandomId_fresh draws exclude id :
  getExclusiveRandomId draws exclude = Some id -> id ∉ exclude.
Proof.
  induction draws as [|r rest IH]; simpl; [discriminate|].
  destruct (includes exclude (getRandomId r)) eqn:Hin; [exact IH|].
  intros [= <-] Hel. unfold includes in Hin.
  apply list_elem_of_In in Hel.
  assert (existsb (Z.eqb (getRandomId r)) exclude = true) as Ht
    by (apply existsb_exists; exists (getRandomId r); split; [exact Hel | apply Z.eqb_refl]).
  congruence.
Qed.

Lemma connect_existing acc c ch draws s s' ev r ws :
  socketConnections s !! c = Some ws ->
  connectChainSocket acc c (Some ch) draws s = Some (s', ev, r) ->
  exists h, r = inr (h, ws) /\ (h ∉ default [] (usersOf s c)) /\ ev = [UserAdded c h] /\
            socketConnections s' = socketConnections s.
Proof.
  intros Hws H.
  unfold connectChainSocket, addSocketUser in H; unfold_monad.
  run_hyps; simpl in *; try congruence.
  all: rewrite Hws in *; simplify_eq/=.
  all: exists z; repeat split; try congruence;
    match goal with H : getExclusiveRandomId _ _ = Some _ |- _ =>
      apply getExclusiveRandomId_fresh in H end; auto.
Qed.

Lemma reachable_live acc s tr c :
  Reachable acc s tr ->
  constructedFor c tr = (disconnectedFor c tr + present (socketConnections s !! c))%nat.
Proof.
  induction 1 as [| s tr chainId chain draws s' ev r _ IH Hst
                   | s tr chainId id s' ev r _ IH Hst
                   | s tr i chainId ws s' ev r _ IH Hi Hst].
  - reflexivity.
  - apply (connect_balanced _ _ _ _ _ _ _ _ c) in Hst.
    unfold constructedFor, disconnectedFor in *. rewrite !List.filter_app, !length_app. lia.
  - apply (disconnect_balanced _ _ _ _ _ _ c) in Hst.
    unfold constructedFor, disconnectedFor in *. rewrite !List.filter_app, !length_app. lia.
  - apply (healthcheck_balanced _ _ _ _ _ c) in Hst. simpl in Hst.
    unfold constructedFor, disconnectedFor in *. rewrite !List.filter_app, !length_app. lia.
Qed.

Lemma reach_connect_run acc s tr chainId chain draws :
  Reachable acc s tr ->
  connectChainSocket acc chainId chain draws s <> None ->
  Reachable acc (finalOf (connectChainSocket acc chainId chain draws s)).1
                (tr ++ (finalOf (connectChainSocket acc chainId chain draws s)).2).
Proof.
  intros Hr Hn. destruct (connectChainSocket acc chainId chain draws s) as [[[s' ev] r]|] eqn:E;
    [|congruence].
  simpl. eapply reach_connect; eauto.
Qed.

Lemma reach_disconnect_run acc s tr chainId socketUserId :
  Reachable acc s tr ->
  disconnectChainSocket chainId socketUserId s <> None ->
  Reachable acc (finalOf (disconnectChainSocket chainId socketUserId s)).1
                (tr ++ (finalOf (disconnectChainSocket chainId socketUserId s)).2).
Proof.
  intros Hr Hn. destruct (disconnectChainSocket chainId socketUserId s) as [[[s' ev] r]|] eqn:E;
    [|congruence].
  simpl. eapply reach_disconnect; eauto.
Qed.

(** C1: over every interleaving of [connectChainSocket], [disconnectChainSocket]
    and healthcheck set-ups, the providers of a chain constructed and not yet
    disconnected number exactly the entries of [#socketConnections] for it,
    so at most one; and when an entry exists, acquiring the chain (found in
    chaindata) returns that provider with a fresh user id and constructs
    nothing. *)
Theorem one_provider_per_chain acc s tr c :
  Reachable acc s tr ->
  liveProviders c tr = present (socketConnections s !! c) /\
  (liveProviders c tr <= 1)%nat /\
  (forall ws ch draws s' ev r,
     socketConnections s !! c = Some ws ->
     connectChainSocket acc c (Some ch) draws s = Some (s', ev, r) ->
     exists h, r = inr (h, ws) /\ (h ∉ default [] (usersOf s c)) /\
               ev = [UserAdded c h] /\ socketConnections s' = socketConnections s).
Proof.
  intros Hr. pose proof (reachable_live _ _ _ c Hr) as Hl.
  unfold liveProviders. split; [lia|]. split.
  - destruct (socketConnections s !! c); simpl in *; lia.
  - intros. eapply connect_existing; eauto.
Qed.

Lemma one_provider_per_chain_witness :
  Reachable acceptAll afterFirstConnect.1 ([] ++ afterFirstConnect.2) /\
  liveProviders "polkadot" ([] ++ afterFirstConnect.2) = 1%nat.
Proof.
  assert (Hr : Reachable acceptAll afterFirstConnect.1 ([] ++ afterFirstConnect.2)).
  { apply reach_connect_run; [apply reach_init | vm_compute; discriminate]. }
  split; [exact Hr|].
  destruct (one_provider_per_chain _ _ _ "polkadot" Hr) as [-> _].
  vm_compute. reflexivity.
Defined.

Lemma connect_ok_users acc c chain draws s s1 ev1 h ws :
  connectChainSocket acc c chain draws s = Some (s1, ev1, inr (h, ws)) ->
  usersOf s1 c = Some (default [] (usersOf s c) ++ [h]).
Proof.
  intros H.
  unfold connectChainSocket, addSocketUser, newWsProvider in H; unfold_monad.
  run_hyps; simpl in *; rewrite ?Heqo9, ?Heqo8, ?Heqo7, ?Heqo6, ?Heqo5; unfold usersOf; simpl.
  all: rewrite lookup_insert_eq; reflexivity.
Qed.

Lemma indexOf_In h l : In h l -> exists i, indexOf h l = Some i.
Proof.
  induction l as [|y l IH]; simpl; [tauto|].
  intros Hin. destruct (Z.eqb_spec h y) as [->|Hne]; [eauto|].
  destruct Hin as [->|Hin]; [congruence|].
  destruct (IH Hin) as [i ->]. eauto.
Qed.

Lemma disconnect_member c h s l :
  usersOf s c = Some l -> In h l ->
  exists s' ev, disconnectChainSocket c h s = Some (s', ev, inr tt) /\
                length (List.filter (isUserRemoved c h) ev) = 1%nat.
Proof.
  intros Hu Hin. destruct (indexOf_In h l Hin) as [i Hi].
  unfold disconnectChainSocket, removeSocketUser; unfold_monad.
  rewrite Hu, Hi. simpl. unfold usersOf; simpl. rewrite lookup_insert_eq.
  destruct (Nat.ltb 0 (length (splice1 l i))); simpl;
    [|destruct (socketConnections s !! c)]; simpl;
    eexists _, _; (split; [reflexivity|]); simpl;
    rewrite bool_decide_eq_true_2, Z.eqb_refl by reflexivity; reflexivity.
Qed.

Lemma in_app_last (l : list Z) h : In h (l ++ [h]).
Proof. apply in_or_app. right. left. reflexivity. Qed.

(** [send]: once [connectChainSocket] has handed out user [h], the rest of
    [send] removes [h] exactly once and settles as the transport call did. *)
Lemma send_releases_once {T} acc c chain draws (response : Exn + T) s s1 ev1 h ws :
  connectChainSocket acc c chain draws s = Some (s1, ev1, inr (h, ws)) ->
  exists s' ev2, send acc c chain draws response s = Some (s', ev1 ++ ev2, response) /\
                 length (List.filter (isUserRemoved c h) ev2) = 1%nat.
Proof.
  intros H. pose proof (connect_ok_users _ _ _ _ _ _ _ _ _ H) as Hu.
  destruct (disconnect_member c h s1 _ Hu (in_app_last _ _)) as (s' & ev & Hd & Hn).
  unfold send, bind at 1. rewrite H.
  destruct response as [e|v]; unfold bind, emit, ret, throw; simpl; rewrite Hd;
    eexists _, _; split; [reflexivity| |reflexivity|]; simpl;
    rewrite ?List.filter_app, ?length_app; simpl; rewrite ?app_nil_r; try exact Hn; lia.
Qed.

(** [subscribe]: once user [h] is handed out, a rejected [ws.subscribe]
    removes [h] exactly once before rethrowing; a successful one keeps [h]
    and returns a closure that holds it. *)
Lemma subscribe_paths acc c chain draws s s1 ev1 h ws :
  connectChainSocket acc c chain draws s = Some (s1, ev1, inr (h, ws)) ->
  (forall e, exists s' ev2,
     subscribe acc c chain draws (inl e) s = Some (s', ev1 ++ ev2, inl e) /\
     length (List.filter (isUserRemoved c h) ev2) = 1%nat) /\
  (forall subId,
     subscribe acc c chain draws (inr subId) s =
       Some (s1, ev1 ++ [], inr {| unsub_chainId := c; unsub_socketUserId := h;
                                  unsub_ws := ws; unsub_subscriptionId := subId |})).
Proof.
  intros H. pose proof (connect_ok_users _ _ _ _ _ _ _ _ _ H) as Hu.
  destruct (disconnect_member c h s1 _ Hu (in_app_last _ _)) as (s' & ev & Hd & Hn).
  split.
  - intros e. unfold subscribe, bind at 1. rewrite H.
    unfold bind, throw; simpl; rewrite Hd.
    eexists _, _; split; [reflexivity|]. rewrite List.filter_app, length_app. simpl. lia.
  - intros subId. unfold subscribe, bind at 1. rewrite H. reflexivity.
Qed.

(** C2 (the unsubscribe path): [subscribe] succeeds on a fresh connector
    and hands out user 50000000; calling the returned closure when
    [ws.unsubscribe] rejects rethrows without reaching
    [disconnectChainSocket]: the user stays in [#socketUsers] and the
    provider stays connected. *)
Theorem unsubscribe_rejection_keeps_user :
  match resultOf (subscribe acceptAll "polkadot" (Some polkadot) [1/2]%Q (inr "0x01")
                    emptyConnector) with
  | Some (inr u) =>
      let s1 := (finalOf (subscribe acceptAll "polkadot" (Some polkadot) [1/2]%Q (inr "0x01")
                            emptyConnector)).1 in
      unsub_socketUserId u = 50000000 /\
      runUnsubscribe u (inl (RpcError "unsubscribe failed")) s1
        = Some (s1, [], inl (RpcError "unsubscribe failed")) /\
      usersOf s1 "polkadot" = Some [50000000] /\
      socketConnections s1 !! "polkadot" <> None
  | _ => False
  end.
Proof.
  vm_compute. split; [reflexivity|]. split; [reflexivity|]. split; [reflexivity|]. discriminate.
Qed.

Lemma indexOf_Some_In h l i : indexOf h l = Some i -> In h l.
Proof.
  revert i. induction l as [|y l IH]; simpl; [discriminate|].
  intros i. destruct (Z.eqb_spec h y) as [->|_]; [left; reflexivity|].
  destruct (indexOf h l) eqn:E; [|discriminate]. intros _. right. eauto.
Qed.

Lemma usersOf_set_insert s c l :
  usersOf (set_socketUsers (<[c := l]> (socketUsers s)) s) c = Some l.
Proof. unfold usersOf; simpl. apply lookup_insert_eq. Qed.

(** C3: a release either throws (the user is not in the list: nothing
    changes), or removes the user; the chain's provider is disconnected
    exactly when the list has just become empty and a provider is stored,
    and then the provider is disconnected, its interval cleared and both
    entries deleted; a release leaving users in the list changes nothing
    but the list. *)
Theorem release_disconnects_iff_emptied c h s :
  match disconnectChainSocket c h s with
  | Some (s', ev, r) =>
      ((exists ws, In (Disconnect c ws) ev) <->
         (r = inr tt /\ usersOf s' c = Some [] /\ socketConnections s !! c <> None)) /\
      (forall ws, r = inr tt -> usersOf s' c = Some [] -> socketConnections s !! c = Some ws ->
         ev = [UserRemoved c h; Disconnect c ws;
               ClearInterval (socketKeepAliveIntervals s !! c)] /\
         socketConnections s' = delete c (socketConnections s) /\
         socketKeepAliveIntervals s' = delete c (socketKeepAliveIntervals s) /\
         socketUsers s' = <[c := []]> (socketUsers s) /\
         pendingHealthchecks s' = pendingHealthchecks s) /\
      (r = inr tt -> usersOf s' c <> Some [] ->
         ev = [UserRemoved c h] /\ s' = set_socketUsers (socketUsers s') s /\
         exists l, usersOf s c = Some l /\ In h l) /\
      (forall e, r = inl e -> s' = s /\ ev = [])
  | None => False
  end.
Proof.
  unfold disconnectChainSocket, removeSocketUser; unfold_monad. simpl.
  destruct (usersOf s c) as [l|] eqn:Hu; simpl.
  2: { split; [split; [intros [? []] | intros (? & ? & ?); discriminate]|].
       repeat split; intros; congruence. }
  destruct (indexOf h l) as [i|] eqn:Hi; simpl.
  2: { split; [split; [intros [? []] | intros (? & ? & ?); discriminate]|].
       repeat split; intros; congruence. }
  assert (Hin : In h l) by (eapply indexOf_Some_In; eauto).
  rewrite usersOf_set_insert.
  destruct (Nat.ltb 0 (length (splice1 l i))) eqn:Hlt; simpl.
  all: [> apply Nat.ltb_lt in Hlt | apply Nat.ltb_ge in Hlt].
  - rewrite usersOf_set_insert.
    assert (Hne : splice1 l i <> []) by (destruct (splice1 l i); simpl in *; [lia|discriminate]).
    split; [split; [intros [? [?|[]]]; discriminate | intros (_ & Hc & _); congruence]|].
    split; [intros; congruence|].
    split; [|intros; discriminate].
    intros _ _. split; [reflexivity|]. split; [reflexivity|]. eauto.
  - assert (He : splice1 l i = []) by (destruct (splice1 l i); simpl in *; [reflexivity|simpl in *; lia]).
    rewrite He in *.
    destruct (socketConnections s !! c) as [ws|] eqn:Hc; simpl.
    + unfold usersOf; simpl. rewrite lookup_insert_eq.
      split; [split; [intros _; split; [reflexivity|]; split; [reflexivity|congruence]
                     | intros _; exists ws; right; left; reflexivity]|].
      split; [|split; [intros _ Hn; congruence | intros; discriminate]].
      intros ws' _ _ [= <-]. repeat split; reflexivity.
    + rewrite usersOf_set_insert.
      split; [split; [intros [? [?|[?|[]]]]; discriminate | intros (_ & _ & Hn); congruence]|].
      split; [intros; congruence|].
      split; [intros _ Hn; congruence | intros; discriminate].
Qed.

Lemma filter_sublist_of (f : ChainRpc -> bool) (l : list ChainRpc) :
  List.filter f l `sublist_of` l.
Proof.
  induction l as [|x l IH]; simpl; [constructor|].
  destruct (f x); constructor; exact IH.
Qed.

Lemma filter_split_perm (f : ChainRpc -> bool) (l : list ChainRpc) :
  List.filter f l ++ List.filter (fun r => negb (f r)) l ≡ₚ l.
Proof.
  induction l as [|x l IH]; simpl; [reflexivity|].
  destruct (f x); simpl.
  - constructor. exact IH.
  - rewrite <- Permutation_middle. constructor. exact IH.
Qed.

Lemma filter_Forall (f : ChainRpc -> bool) (l : list ChainRpc) :
  Forall (fun r => f r = true) (List.filter f l).
Proof.
  apply Forall_forall. intros x Hx. apply list_elem_of_In, filter_In in Hx. tauto.
Qed.

(** The order built by [connectChainSocket]: the healthy entries, in input
    order, then the unhealthy ones, in input order. *)
Lemma sortedRpcUrls_spec (l : list ChainRpc) :
  exists healthy unhealthy,
    sortedRpcUrls l = map url (healthy ++ unhealthy) /\
    Forall (fun r => isHealthy r = true) healthy /\
    Forall (fun r => isHealthy r = false) unhealthy /\
    healthy `sublist_of` l /\ unhealthy `sublist_of` l /\
    healthy ++ unhealthy ≡ₚ l.
Proof.
  exists (List.filter (fun r => isHealthy r) l),
         (List.filter (fun r => negb (isHealthy r)) l).
  split; [unfold sortedRpcUrls; rewrite map_app; reflexivity|].
  split; [apply (filter_Forall (fun r => isHealthy r))|].
  split.
  { eapply Forall_impl; [apply (filter_Forall (fun r => negb (isHealthy r)))|].
    intros x Hx. cbn in *. destruct (isHealthy x); cbn in *; congruence. }
  split; [apply filter_sublist_of|]. split; [apply filter_sublist_of|].
  apply (filter_split_perm (fun r => isHealthy r)).
Qed.

Lemma connect_new_endpoints acc c ch draws s s' ev r ws :
  connectChainSocket acc c (Some ch) draws s = Some (s', ev, r) ->
  In (NewWsProvider c ws) ev ->
  ws_endpoints ws = sortedRpcUrls (default [] (rpcs ch)) /\ ws_autoConnectMs ws = 1000.
Proof.
  intros H Hin.
  unfold connectChainSocket, addSocketUser, newWsProvider in H; unfold_monad.
  run_hyps; simpl in *;
    repeat match goal with
    | H : _ \/ _ |- _ => destruct H as [H|H]
    | H : False |- _ => destruct H
    | H : _ = NewWsProvider _ _ |- _ => injection H as <-; simpl
    | H : _ = NewWsProvider _ _ |- _ => discriminate H
    end.
  all: rewrite ?Heqo6; simpl; split; [congruence|reflexivity].
Qed.

(** C4: the endpoint list given to [new WsProvider] by [connectChainSocket]
    is the chain's healthy rpcs in input order followed by its unhealthy
    rpcs in input order, a permutation of the input (and
    [A(unhealthy), B, C, D(unhealthy)] gives [B, C, A, D]). *)
Theorem connect_orders_rpcs_healthy_first acc c ch draws s s' ev r ws :
  connectChainSocket acc c (Some ch) draws s = Some (s', ev, r) ->
  In (NewWsProvider c ws) ev ->
  exists healthy unhealthy,
    ws_endpoints ws = map url (healthy ++ unhealthy) /\
    Forall (fun r => isHealthy r = true) healthy /\
    Forall (fun r => isHealthy r = false) unhealthy /\
    healthy `sublist_of` default [] (rpcs ch) /\
    unhealthy `sublist_of` default [] (rpcs ch) /\
    healthy ++ unhealthy ≡ₚ default [] (rpcs ch) /\
    ws_endpoints ws ≡ₚ map url (default [] (rpcs ch)).
Proof.
  intros H Hin. destruct (connect_new_endpoints _ _ _ _ _ _ _ _ _ H Hin) as [He _].
  destruct (sortedRpcUrls_spec (default [] (rpcs ch))) as (hs & us & Hs & Hh & Hu & Sh & Su & Hp).
  exists hs, us. rewrite He, Hs.
  repeat (split; [first [reflexivity | assumption]|]).
  apply Permutation_map. exact Hp.
Qed.

Lemma connect_orders_rpcs_healthy_first_witness :
  ws_endpoints polkadotWs = ["wss://b"; "wss://c"; "wss://a"; "wss://d"] /\
  exists healthy unhealthy,
    ws_endpoints polkadotWs = map url (healthy ++ unhealthy) /\
    Forall (fun r => isHealthy r = true) healthy /\
    Forall (fun r => isHealthy r = false) unhealthy /\
    healthy `sublist_of` default [] (rpcs polkadot) /\
    unhealthy `sublist_of` default [] (rpcs polkadot) /\
    healthy ++ unhealthy ≡ₚ default [] (rpcs polkadot) /\
    ws_endpoints polkadotWs ≡ₚ map url (default [] (rpcs polkadot)).
Proof.
  split; [reflexivity|].
  apply (connect_orders_rpcs_healthy_first acceptAll "polkadot" polkadot [1/2]%Q emptyConnector
           afterFirstConnect.1 afterFirstConnect.2 (inr (50000000, polkadotWs))).
  - vm_compute. reflexivity.
  - vm_compute. right. left. reflexivity.
Defined.

Lemma sortedRpcUrls_nil (l : list ChainRpc) : sortedRpcUrls l = [] <-> l = [].
Proof.
  split; [|intros ->; reflexivity].
  destruct l as [|x l]; [reflexivity|]. unfold sortedRpcUrls; simpl.
  destruct (isHealthy x); simpl; [discriminate|].
  intros Hn. apply app_eq_nil in Hn as [_ Hn]. discriminate.
Qed.

(** C5 (as the code has it): [ChainNotFound] exactly when chaindata has no
    chain; with no stored provider, [NoHealthyRpcs] exactly when the chain
    lists no rpc at all (unhealthy rpcs are still used), the constructor's
    error exactly when [new WsProvider] rejects the ordered list, and a user
    id with a new provider otherwise; with a stored provider, a user id with
    that provider. *)
Theorem connect_outcome acc c chain draws s s' ev r :
  connectChainSocket acc c chain draws s = Some (s', ev, r) ->
  (r = inl (ChainNotFound c) <-> chain = None) /\
  (forall ch, chain = Some ch -> socketConnections s !! c = None ->
     (r = inl (NoHealthyRpcs c) <-> default [] (rpcs ch) = []) /\
     (r = inl WsProviderError <->
        default [] (rpcs ch) <> [] /\ acc (sortedRpcUrls (default [] (rpcs ch))) = false) /\
     ((exists h ws, r = inr (h, ws)) <->
        default [] (rpcs ch) <> [] /\ acc (sortedRpcUrls (default [] (rpcs ch))) = true)) /\
  (forall ch ws, chain = Some ch -> socketConnections s !! c = Some ws ->
     exists h, r = inr (h, ws)).
Proof.
  intros H.
  unfold connectChainSocket, addSocketUser, newWsProvider in H; unfold_monad.
  run_hyps; simpl in *.
  all: split; [split; intros; congruence|].
  all: split; intros ch; [|intros ws0]; intros Hch Hc; (injection Hch as <- || discriminate Hch).
  all: try congruence.
  all: repeat match goal with H : rpcs _ = _ |- _ => rewrite H in *; clear H end; simpl in *.
  all: repeat match goal with H : sortedRpcUrls ?l = [] |- _ =>
                 apply sortedRpcUrls_nil in H; subst l end.
  all: try (exfalso; match goal with H : sortedRpcUrls [] = _ :: _ |- _ => discriminate H end).
  all: repeat match goal with H : sortedRpcUrls ?l = _ :: _ |- _ =>
                 rewrite H; assert (l <> []) by (intros ->; discriminate H); clear H end.
  all: repeat match goal with H : _ (_ :: _) = _ |- _ => rewrite H; clear H end.
  all: try (exists z; congruence).
  all: intuition (try congruence; eauto).
  all: match goal with H : ∃ _ _, inl _ = inr _ |- _ => destruct H as (? & ? & ?); discriminate end.
Qed.



Lemma connect_outcome_witness :
  connectChainSocket acceptAll "polkadot" (Some unhealthyOnlyChain) [1/2]%Q emptyConnector
    <> None /\
  exists h ws, resultOf (connectChainSocket acceptAll "polkadot" (Some unhealthyOnlyChain)
                           [1/2]%Q emptyConnector) = Some (inr (h, ws)).
Proof.
  split; [vm_compute; discriminate|].
  destruct (connectChainSocket acceptAll "polkadot" (Some unhealthyOnlyChain) [1/2]%Q
              emptyConnector) as [[[s' ev] r]|] eqn:E; [|vm_compute in E; discriminate].
  destruct (connect_outcome _ _ _ _ _ _ _ _ E) as (_ & Hn & _).
  destruct (Hn unhealthyOnlyChain eq_refl eq_refl) as (_ & _ & Hok).
  destruct (proj2 Hok) as (h & ws & ->); [split; [discriminate|reflexivity]|].
  exists h, ws. reflexivity.
Defined.

(** C5 as stated fails: a chain whose only rpc is flagged unhealthy gets a
    provider (no [NoHealthyRpcs]), and with an rpc the provider constructor
    rejects, acquiring fails with neither [ChainNotFound] nor
    [NoHealthyRpcs]. *)
Lemma connect_outcome_counterexample :
  resultOf (connectChainSocket acceptAll "polkadot" (Some unhealthyOnlyChain) [1/2]%Q
              emptyConnector)
    = Some (inr (50000000, {| ws_id := 0; ws_endpoints := ["wss://a"];
                              ws_autoConnectMs := 1000 |})) /\
  resultOf (connectChainSocket wsUrlCheck "polkadot" (Some httpOnlyChain) [1/2]%Q
              emptyConnector)
    = Some (inl WsProviderError).
Proof. split; vm_compute; reflexivity. Qed.

Lemma indexOf_None h l : ~ In h l -> indexOf h l = None.
Proof.
  induction l as [|y l IH]; simpl; [reflexivity|].
  intros Hn. destruct (Z.eqb_spec h y) as [->|_]; [tauto|].
  rewrite IH by tauto. reflexivity.
Qed.

(** C6 as stated fails: releasing the same user twice throws on the second
    call. (Releasing on a chain never acquired also throws, a TypeError from
    reading [indexOf] of [undefined].) *)
Lemma double_release_counterexample :
  resultOf (disconnectChainSocket "polkadot" 50000000 afterFirstConnect.1) = Some (inr tt) /\
  resultOf (disconnectChainSocket "polkadot" 50000000 afterOneRelease.1)
    = Some (inl (UserNotInList "polkadot" 50000000)) /\
  resultOf (disconnectChainSocket "kusama" 50000000 emptyConnector)
    = Some (inl TypeErrorUndefined).
Proof. vm_compute. repeat split; reflexivity. Qed.

(** C6 (as the code has it): releasing a user that is not in the chain's
    list, e.g. a second release, throws [UserNotInList] and changes nothing;
    a release only logs a warning, and then returns normally, when it
    empties the list of a chain with no provider. *)
Theorem release_absent_user_throws c h s :
  (forall l, usersOf s c = Some l -> ~ In h l ->
     disconnectChainSocket c h s = Some (s, [], inl (UserNotInList c h))) /\
  (forall s' ev r msg, disconnectChainSocket c h s = Some (s', ev, r) ->
     In (LogWarn msg) ev ->
     r = inr tt /\ usersOf s' c = Some [] /\ socketConnections s !! c = None /\
     socketConnections s' = socketConnections s).
Proof.
  split.
  - intros l Hu Hn. unfold disconnectChainSocket, removeSocketUser; unfold_monad.
    rewrite Hu, (indexOf_None h l Hn). reflexivity.
  - intros s' ev r msg H Hin.
    unfold disconnectChainSocket, removeSocketUser in H; unfold_monad.
    run_hyps; simpl in *;
      repeat match goal with
      | H : _ \/ _ |- _ => destruct H as [H|H]
      | H : False |- _ => destruct H
      | H : _ = LogWarn _ |- _ => discriminate H
      end.
    all: rewrite ?usersOf_set_insert in *; simpl; try discriminate.
    all: repeat split; try reflexivity; try assumption.
    all: match goal with H : Some (splice1 _ _) = Some ?l3 |- _ => rewrite H end.
    all: match goal with Hb : Nat.ltb _ (length ?l3) = false |- _ =>
           apply Nat.ltb_ge in Hb; destruct l3; simpl in Hb; [reflexivity | lia]
         end.
Qed.

Lemma release_absent_user_throws_witness :
  disconnectChainSocket "polkadot" 50000000 afterOneRelease.1
    = Some (afterOneRelease.1, [], inl (UserNotInList "polkadot" 50000000)).
Proof.
  apply (proj1 (release_absent_user_throws "polkadot" 50000000 _) []);
    [vm_compute; reflexivity | simpl; tauto].
Defined.

(** C7: an acquire that fails while opening the provider leaves the user id
    it allocated in [#socketUsers] with no provider for the chain: with no
    rpc listed ([NoHealthyRpcs]) and with an rpc the constructor rejects. *)
Theorem failed_connect_keeps_user :
  let r1 := connectChainSocket acceptAll "polkadot" (Some noRpcChain) [1/2]%Q emptyConnector in
  let r2 := connectChainSocket wsUrlCheck "polkadot" (Some httpOnlyChain) [1/2]%Q emptyConnector in
  resultOf r1 = Some (inl (NoHealthyRpcs "polkadot")) /\
  usersOf (finalOf r1).1 "polkadot" = Some [50000000] /\
  socketConnections (finalOf r1).1 !! "polkadot" = None /\
  socketKeepAliveIntervals (finalOf r1).1 !! "polkadot" = None /\
  resultOf r2 = Some (inl WsProviderError) /\
  usersOf (finalOf r2).1 "polkadot" = Some [50000000] /\
  socketConnections (finalOf r2).1 !! "polkadot" = None.
Proof. vm_compute. repeat split; reflexivity. Qed.

Lemma roundHalfEven_bounds num den :
  0 < den -> 0 <= num ->
  0 <= roundHalfEven num den /\ 2 * roundHalfEven num den * den <= 2 * num + den.
Proof.
  intros Hd Hn. unfold roundHalfEven.
  pose proof (Z.div_mod num den ltac:(lia)) as Hdm.
  pose proof (Z.mod_pos_bound num den Hd) as Hr.
  pose proof (Z.div_pos num den Hn Hd) as Hq.
  set (q := num / den) in *. set (r := num mod den) in *.
  destruct ((den <? 2 * r) || ((2 * r =? den) && Z.odd q)) eqn:Hc.
  - apply orb_true_iff in Hc as [Hc | Hc].
    + apply Z.ltb_lt in Hc. split; nia.
    + apply andb_true_iff in Hc as [Hc _]. apply Z.eqb_eq in Hc. split; nia.
  - split; nia.
Qed.

Lemma roundHalfEven_1 x : roundHalfEven x 1 = x.
Proof. unfold roundHalfEven. rewrite Z.div_1_r, Z.mod_1_r. reflexivity. Qed.

Lemma floorLog2Q_lower a b :
  0 < a -> 0 < b -> 0 <= floorLog2Q a b -> b * 2 ^ floorLog2Q a b <= a.
Proof.
  intros Ha Hb. unfold floorLog2Q.
  pose proof (Z.log2_spec a Ha) as [Ha1 Ha2].
  pose proof (Z.log2_spec b Hb) as [Hb1 Hb2].
  pose proof (Z.log2_nonneg a) as Hla. pose proof (Z.log2_nonneg b) as Hlb.
  set (la := Z.log2 a) in *. set (lb := Z.log2 b) in *.
  destruct (Z.leb_spec 0 (la - lb)) as [He0|He0].
  - destruct (Z.leb_spec (b * 2 ^ (la - lb)) a) as [H1|H1]; [intros _; exact H1|].
    intros He.
    assert (Hp : 2 ^ Z.succ lb * 2 ^ (la - lb - 1) = 2 ^ la)
      by (rewrite <- Z.pow_add_r by lia; f_equal; lia).
    assert (0 < 2 ^ (la - lb - 1)) by (apply Z.pow_pos_nonneg; lia).
    nia.
  - destruct (b <=? a * 2 ^ (- (la - lb))); intros He; lia.
Qed.

Lemma floorLog2Q_int n : 0 < n -> floorLog2Q n 1 = Z.log2 n.
Proof.
  intros Hn. unfold floorLog2Q.
  change (Z.log2 1) with 0. rewrite Z.sub_0_r.
  pose proof (Z.log2_nonneg n). pose proof (Z.log2_spec n Hn) as [H1 _].
  destruct (Z.leb_spec 0 (Z.log2 n)); [|lia].
  destruct (Z.leb_spec (1 * 2 ^ Z.log2 n) n); lia.
Qed.

Lemma mathRandomValue_bound r :
  mathRandomValue r -> 0 <= Qnum r /\ Qnum r * 2 ^ 53 <= (2 ^ 53 - 1) * Zpos (Qden r).
Proof.
  intros (H0 & H1 & m & E & Hm & HE & Heq).
  destruct r as [n d]. unfold Qle, Qlt, Qeq in *. simpl in *.
  rewrite Pos.mul_1_r in Heq.
  split; [lia|].
  assert (Hd : 0 < Zpos d) by lia.
  destruct (Z.le_gt_cases E 53) as [HE53|HE53].
  - assert (HPQ : 2 ^ E * 2 ^ (53 - E) = 2 ^ 53)
      by (rewrite <- Z.pow_add_r by lia; f_equal; lia).
    assert (0 < 2 ^ E) by (apply Z.pow_pos_nonneg; lia).
    assert (1 <= 2 ^ (53 - E)) by (apply (Z.pow_le_mono_r 2 0); lia).
    assert (m < 2 ^ E) by nia.
    rewrite <- HPQ. nia.
  - assert (HPQ : 2 ^ 53 * 2 ^ (E - 53) = 2 ^ E)
      by (rewrite <- Z.pow_add_r by lia; f_equal; lia).
    assert (2 <= 2 ^ (E - 53)) by (apply (Z.pow_le_mono_r 2 1); lia).
    assert (2 * n < Zpos d).
    { assert (n * 2 ^ 53 * 2 ^ (E - 53) < 2 ^ 53 * Zpos d) by nia. nia. }
    change (2 ^ 53) with 9007199254740992. lia.
Qed.

Lemma getRandomId_range r : mathRandomValue r -> 0 <= getRandomId r < 10 ^ 8.
Proof.
  intros Hr. apply mathRandomValue_bound in Hr as [Hn Hb].
  destruct r as [n d]. simpl in Hn, Hb.
  unfold getRandomId, roundBinary64. cbn [Qmult Qnum Qden inject_Z].
  rewrite Pos.mul_1_r. change (10 ^ 8) with 100000000.
  destruct (Z.eqb_spec (n * 100000000) 0) as [Hz|Hne]; [unfold mathTrunc; simpl; rewrite Z.shiftr_0_l; lia|].
  destruct (Z.ltb_spec (n * 100000000) 0); [lia|].
  assert (Ha : 0 < n * 100000000) by lia.
  assert (Hd : 0 < Zpos d) by lia.
  change (2 ^ 53) with 9007199254740992 in Hb.
  unfold roundPos64.
  assert (He : floorLog2Q (n * 100000000) (Zpos d) <= 26).
  { destruct (Z.lt_ge_cases (floorLog2Q (n * 100000000) (Zpos d)) 0) as [Hlt0|Hge0]; [lia|].
    pose proof (floorLog2Q_lower _ _ Ha Hd Hge0) as Hl.
    assert (2 ^ floorLog2Q (n * 100000000) (Zpos d) < 2 ^ 27) by (change (2 ^ 27) with 134217728; nia).
    match goal with Hp : 2 ^ _ < 2 ^ 27 |- _ => apply Z.pow_lt_mono_r_iff in Hp; lia end. }
  set (k := Z.max (floorLog2Q (n * 100000000) (Zpos d) - 52) (-1074)).
  assert (Hk : k <= -26) by (unfold k; lia).
  destruct (Z.leb_spec 0 k); [lia|].
  set (P := 2 ^ (- k)).
  assert (HP : 67108864 <= P) by (unfold P; change 67108864 with (2 ^ 26); apply Z.pow_le_mono_r; lia).
  destruct (roundHalfEven_bounds (n * 100000000 * P) (Zpos d) Hd ltac:(nia)) as [Hm0 Hm1].
  set (mv := roundHalfEven (n * 100000000 * P) (Zpos d)) in *.
  assert (Hlt : mv < P * 100000000).
  { destruct (Z.lt_ge_cases mv (P * 100000000)) as [Hc|Hc]; [exact Hc|].
    assert (2 * (P * 100000000) * Zpos d <= 2 * mv * Zpos d) by nia.
    assert (2 * P * 100000000 * Zpos d * 9007199254740992 <=
            2 * 100000000 * P * (9007199254740992 - 1) * Zpos d + Zpos d * 9007199254740992) by nia.
    assert (2 * 100000000 * P <= 9007199254740992) by nia.
    lia. }
  unfold mathTrunc. destruct (Z.ltb_spec mv 0); [lia|].
  rewrite Z.shiftr_div_pow2 by lia. fold P.
  split; [apply Z.div_pos; lia|].
  apply Z.div_lt_upper_bound; lia.
Qed.

Lemma roundPos64_int p :
  0 < p < 2 ^ 53 -> roundPos64 p 1 = (p * 2 ^ (52 - Z.log2 p), Z.log2 p - 52).
Proof.
  intros Hp. unfold roundPos64. rewrite floorLog2Q_int by lia.
  pose proof (Z.log2_nonneg p).
  assert (Z.log2 p < 53) by (apply Z.log2_lt_pow2; lia).
  rewrite Z.max_l by lia.
  destruct (Z.leb_spec 0 (Z.log2 p - 52)).
  - assert (Z.log2 p = 52) as -> by lia. simpl. rewrite roundHalfEven_1, Z.mul_1_r. reflexivity.
  - rewrite roundHalfEven_1. do 3 f_equal. lia.
Qed.

Lemma numberOfInteger_exact n : Z.abs n < 2 ^ 53 -> numberOfInteger n = Finite n.
Proof.
  intros Hn. unfold numberOfInteger, roundBinary64. cbn [inject_Z Qnum Qden].
  destruct (Z.eqb_spec n 0) as [->|Hne]; [reflexivity|].
  assert (Hgen : forall p, 0 < p < 2 ^ 53 ->
            Z.log2 (p * 2 ^ (52 - Z.log2 p)) + (Z.log2 p - 52) = Z.log2 p /\
            Z.shiftr (p * 2 ^ (52 - Z.log2 p)) (- (Z.log2 p - 52)) = p /\
            0 <= p * 2 ^ (52 - Z.log2 p)).
  { intros p Hp. pose proof (Z.log2_nonneg p).
    assert (Z.log2 p < 53) by (apply Z.log2_lt_pow2; lia).
    assert (0 < 2 ^ (52 - Z.log2 p)) by (apply Z.pow_pos_nonneg; lia).
    rewrite Z.log2_mul_pow2 by lia.
    rewrite Z.shiftr_div_pow2 by lia.
    replace (- (Z.log2 p - 52)) with (52 - Z.log2 p) by lia.
    rewrite Z.div_mul by lia. split; [lia|]. split; [reflexivity | lia]. }
  destruct (Z.ltb_spec n 0).
  - rewrite roundPos64_int by lia.
    destruct (Hgen (- n) ltac:(lia)) as (H1 & H2 & H3).
    rewrite Z.abs_opp, Z.abs_eq by lia. rewrite H1.
    assert (Z.log2 (- n) < 53) by (apply Z.log2_lt_pow2; lia).
    destruct (Z.leb_spec 1024 (Z.log2 (- n))); [lia|].
    unfold mathTrunc. rewrite Z.opp_involutive, H2.
    destruct (Z.ltb_spec (- (- n * 2 ^ (52 - Z.log2 (- n)))) 0); [f_equal; lia|].
    assert (0 < 2 ^ (52 - Z.log2 (- n))) by (apply Z.pow_pos_nonneg; pose proof (Z.log2_nonneg (- n)); lia).
    nia.
  - rewrite roundPos64_int by lia.
    destruct (Hgen n ltac:(lia)) as (H1 & H2 & H3).
    rewrite Z.abs_eq by lia. rewrite H1.
    assert (Z.log2 n < 53) by (apply Z.log2_lt_pow2; lia).
    destruct (Z.leb_spec 1024 (Z.log2 n)); [lia|].
    unfold mathTrunc. destruct (Z.ltb_spec (n * 2 ^ (52 - Z.log2 n)) 0); [lia|].
    rewrite H2. reflexivity.
Qed.

Lemma getExclusiveRandomId_range draws exclude id :
  Forall mathRandomValue draws ->
  getExclusiveRandomId draws exclude = Some id -> 0 <= id < 10 ^ 8.
Proof.
  induction draws as [|r rest IH]; simpl; [discriminate|].
  intros Hf. inversion Hf as [|? ? Hr Hrest]; subst.
  destruct (includes exclude (getRandomId r)); [auto|].
  intros [= <-]. apply getRandomId_range; assumption.
Qed.

Lemma connect_ok_draw acc c chain draws s s1 ev1 h ws :
  connectChainSocket acc c chain draws s = Some (s1, ev1, inr (h, ws)) ->
  getExclusiveRandomId draws (default [] (usersOf s c)) = Some h.
Proof.
  intros H.
  unfold connectChainSocket, addSocketUser, newWsProvider in H; unfold_monad.
  run_hyps; simpl in *.
  all: repeat match goal with H : usersOf _ _ = _ |- _ => rewrite H; clear H end;
       simpl; assumption.
Qed.

(** C8: when the values of [Math.random()] are doubles in [0, 1), the
    result of [getExclusiveRandomId] (with the product rounded to a double
    before [Math.trunc]) is an integer in [0, 10^8) outside its exclude list;
    so a user id handed out by [connectChainSocket] is in that range, is none
    of the chain's current users, and is appended to them. *)
Theorem exclusive_random_id_fresh :
  (forall draws exclude id,
     Forall mathRandomValue draws ->
     getExclusiveRandomId draws exclude = Some id ->
     ~ In id exclude /\ 0 <= id < 10 ^ 8) /\
  (forall acc c chain draws s s' ev h ws,
     Forall mathRandomValue draws ->
     connectChainSocket acc c chain draws s = Some (s', ev, inr (h, ws)) ->
     ~ In h (default [] (usersOf s c)) /\ 0 <= h < 10 ^ 8 /\
     usersOf s' c = Some (default [] (usersOf s c) ++ [h])).
Proof.
  assert (Hloop : forall draws exclude id,
     Forall mathRandomValue draws ->
     getExclusiveRandomId draws exclude = Some id ->
     ~ In id exclude /\ 0 <= id < 10 ^ 8).
  { intros draws exclude id Hf H. split.
    - intros Hin. apply (getExclusiveRandomId_fresh _ _ _ H). apply list_elem_of_In. exact Hin.
    - eapply getExclusiveRandomId_range; eauto. }
  split; [exact Hloop|].
  intros acc c chain draws s s' ev h ws Hf H.
  destruct (Hloop _ _ _ Hf (connect_ok_draw _ _ _ _ _ _ _ _ _ H)) as [Hn Hr].
  split; [exact Hn|]. split; [exact Hr|].
  eapply connect_ok_users; eauto.
Qed.

Lemma exclusive_random_id_fresh_witness :
  ~ In 50000000 [25000000] /\ 0 <= 50000000 < 10 ^ 8.
Proof.
  apply (proj1 exclusive_random_id_fresh [1/4; 1/2]%Q [25000000]).
  - constructor; [|constructor; [|constructor]].
    + split; [discriminate|]. split; [reflexivity|].
      exists 1, 2. split; [lia|]. split; [lia|]. reflexivity.
    + split; [discriminate|]. split; [reflexivity|].
      exists 1, 1. split; [lia|]. split; [lia|]. reflexivity.
  - vm_compute. reflexivity.
Defined.

(** C9 as stated fails: [parseInt(_, 16)] rounds the value read to a double,
    so an endpoint reporting the chain id [2^53 + 1] is healthy for the
    expected chain id [2^53]. *)
Lemma healthy_rounded_chain_id_counterexample :
  parseIntMath16 "0x20000000000001" = Some (2 ^ 53 + 1) /\
  isHealthyRpc (fun _ _ => Answered "0x20000000000001") "u" (2 ^ 53) = true /\
  getHealthyRpc (fun _ _ => Answered "0x20000000000001") ["u"] (2 ^ 53) = (["u"], Some "u").
Proof. split; [|split]; vm_compute; reflexivity. Qed.

(** C9 (as the code has it): [getHealthyRpc] probes the urls in the given
    order and stops at the first healthy one, which it returns; it returns
    [null] after probing every url when none is healthy. A url is healthy
    exactly when its probe is answered before the timeout with a string that
    [parseInt(_, 16)] reads as the expected chain id, the value read being
    rounded to the nearest double; when that value is below [2^53] in
    magnitude, the url is healthy exactly when the value equals the chain id.
    A timeout or any exception gives false. *)
Theorem getHealthyRpc_first_healthy probe rpcUrls chainId :
  (forall url, isHealthyRpc probe url chainId = true <->
     exists rpcChainId, probe url chainId = Answered rpcChainId /\
                        parseInt16 rpcChainId = Finite chainId) /\
  (forall url rpcChainId v, probe url chainId = Answered rpcChainId ->
     parseIntMath16 rpcChainId = Some v -> Z.abs v < 2 ^ 53 ->
     (isHealthyRpc probe url chainId = true <-> v = chainId)) /\
  (forall url, getHealthyRpc probe rpcUrls chainId =
                 (fst (getHealthyRpc probe rpcUrls chainId), Some url) <->
     exists before after,
       rpcUrls = before ++ url :: after /\
       Forall (fun u => isHealthyRpc probe u chainId = false) before /\
       isHealthyRpc probe url chainId = true /\
       fst (getHealthyRpc probe rpcUrls chainId) = before ++ [url]) /\
  (snd (getHealthyRpc probe rpcUrls chainId) = None <->
     Forall (fun u => isHealthyRpc probe u chainId = false) rpcUrls) /\
  (snd (getHealthyRpc probe rpcUrls chainId) = None ->
     fst (getHealthyRpc probe rpcUrls chainId) = rpcUrls).
Proof.
  split.
  { intros u. unfold isHealthyRpc.
    destruct (probe u chainId) as [id| |]; split;
      try (intros [? [? _]]; discriminate); try discriminate.
    - destruct (parseInt16 id) as [|neg|v] eqn:E; try discriminate.
      intros Hv. apply Z.eqb_eq in Hv. subst. eauto.
    - intros [id' [[= <-] ->]]. apply Z.eqb_refl. }
  split.
  { intros url id v Hp Hv Hlt. unfold isHealthyRpc. rewrite Hp. unfold parseInt16.
    rewrite Hv, (numberOfInteger_exact v Hlt).
    split; [apply Z.eqb_eq | intros ->; apply Z.eqb_refl]. }
  induction rpcUrls as [|u rest IH]; simpl.
  - split; [|split; [split; [intros _; constructor | intros _; reflexivity] | intros _; reflexivity]].
    intros url. split; [discriminate|].
    intros (before & after & Hb & _). destruct before; discriminate.
  - destruct IH as (IHs & IHn & IHp).
    destruct (isHealthyRpc probe u chainId) eqn:Hu; simpl.
    + split; [|split; [split; [discriminate| intros Hf; inversion Hf; congruence] | discriminate]].
      intros url. split.
      * intros [= <-]. exists [], rest. repeat split; auto.
      * intros (before & after & Hb & Hf & Hh & Hp).
        destruct before as [|b before]; simpl in *.
        -- injection Hb as <- _. reflexivity.
        -- injection Hb as <- _. inversion Hf; congruence.
    + destruct (getHealthyRpc probe rest chainId) as [probed found] eqn:E; simpl in *.
      split; [|split].
      * intros url. split.
        -- intros [= Hfound]. subst found.
           destruct (proj1 (IHs url) eq_refl) as (before & after & Hb & Hf & Hh & Hp).
           exists (u :: before), after. subst. repeat split; auto.
        -- intros (before & after & Hb & Hf & Hh & Hp).
           destruct before as [|b before]; simpl in *.
           ++ injection Hb as <- _. congruence.
           ++ injection Hb as <- Hb. injection Hp as Hp.
              apply Forall_cons in Hf as [_ Hf'].
              pose proof (proj2 (IHs url) (ex_intro _ before (ex_intro _ after
                          (conj Hb (conj Hf' (conj Hh Hp)))))) as Hq.
              injection Hq as ->. reflexivity.
      * split; [intros Hn; constructor; [exact Hu | apply IHn; exact Hn]|].
        intros Hf. inversion Hf; subst. apply IHn. assumption.
      * intros Hn. f_equal. apply IHp. exact Hn.
Qed.

Lemma getHealthyRpc_first_healthy_witness :
  getHealthyRpc chain5Probe ["u1"; "u2"; "u3"] 5 = (["u1"; "u2"], Some "u2") /\
  (exists before after,
    ["u1"; "u2"; "u3"] = before ++ "u2" :: after /\
    Forall (fun u => isHealthyRpc chain5Probe u 5 = false) before /\
    isHealthyRpc chain5Probe "u2" 5 = true /\
    fst (getHealthyRpc chain5Probe ["u1"; "u2"; "u3"] 5) = before ++ ["u2"]) /\
  (isHealthyRpc chain5Probe "u3" 5 = true <-> 1 = 5).
Proof.
  destruct (getHealthyRpc_first_healthy chain5Probe ["u1"; "u2"; "u3"] 5)
    as (_ & Hexact & Hfirst & _).
  split; [reflexivity|]. split.
  - apply (proj1 (Hfirst "u2")). reflexivity.
  - apply (Hexact "u3" "0x1" 1); [reflexivity | reflexivity | vm_compute; reflexivity].
Defined.

(** C10: for an error object, [isUnhealthyRpcError] returns false exactly
    when its [reason] is the string "processing response error", and true
    for every other object (it never throws on an object). *)
Theorem isUnhealthyRpcError_allow_list props :
  (isUnhealthyRpcError (JsObject props) = inr false <->
     readReason (JsObject props) = inr (JsString "processing response error")) /\
  (isUnhealthyRpcError (JsObject props) = inr true <->
     readReason (JsObject props) <> inr (JsString "processing response error")).
Proof.
  unfold isUnhealthyRpcError. simpl.
  set (reason := match List.find (fun kv => String.eqb kv.1 "reason") props with
                 | Some kv => kv.2 | None => JsUndefined end).
  destruct (includesString ["processing response error"] reason) eqn:E;
    unfold includesString in E.
  - destruct reason as [| | | |s|]; try discriminate. simpl in E.
    rewrite orb_false_r in E. apply String.eqb_eq in E. subst s.
    split; split; intros; congruence.
  - assert (reason <> JsString "processing response error") as Hne.
    { intros Heq. rewrite Heq in E. simpl in E. discriminate. }
    split; split; intros; congruence.
Qed.

Lemma isUnhealthyRpcError_examples :
  isUnhealthyRpcError (JsObject [("reason", JsString "processing response error")]) = inr false /\
  isUnhealthyRpcError (JsObject [("reason", JsString "missing response")]) = inr true /\
  isUnhealthyRpcError (JsObject []) = inr true.
Proof. repeat split; reflexivity. Qed.

(* ------------------------------------------------------------------ *)
(** ** Further properties of the pool, the requests and the EVM helpers *)

Lemma set_socketUsers_id s : set_socketUsers (socketUsers s) s = s.
Proof. destruct s; reflexivity. Qed.

Lemma connect_cases acc c ch draws s :
  connectChainSocket acc c (Some ch) draws s =
  match getExclusiveRandomId draws (default [] (usersOf s c)) with
  | None => None
  | Some h =>
      let s1 := set_socketUsers (<[c := default [] (usersOf s c) ++ [h]]> (socketUsers s)) s in
      match socketConnections s !! c with
      | Some ws => Some (s1, [UserAdded c h], inr (h, ws))
      | None =>
          match sortedRpcUrls (default [] (rpcs ch)) with
          | [] => Some (s1, [UserAdded c h; LogError "connectChainSocket"], inl (NoHealthyRpcs c))
          | r0 :: rs =>
              if acc (r0 :: rs) then
                let ws := {| ws_id := nextWsId s; ws_endpoints := r0 :: rs;
                             ws_autoConnectMs := 1000 |} in
                Some (set_pendingHealthchecks (pendingHealthchecks s ++ [(c, ws)])
                        (set_socketConnections (<[c := ws]> (socketConnections s))
                           (set_nextWsId (S (nextWsId s)) s1)),
                      [UserAdded c h; NewWsProvider c ws], inr (h, ws))
              else Some (s1, [UserAdded c h; LogError "connectChainSocket"], inl WsProviderError)
          end
      end
  end.
Proof.
  unfold connectChainSocket, addSocketUser, newWsProvider; unfold_monad. simpl.
  destruct (getExclusiveRandomId draws _) as [h|]; [|reflexivity]. simpl.
  destruct (socketConnections s !! c) as [ws|]; [reflexivity|].
  destruct (sortedRpcUrls _) as [|r0 rs]; [reflexivity|].
  destruct (acc (r0 :: rs)); reflexivity.
Qed.

Lemma disconnect_cases c h s :
  disconnectChainSocket c h s =
  match usersOf s c with
  | None => Some (s, [], inl TypeErrorUndefined)
  | Some l =>
      match indexOf h l with
      | None => Some (s, [], inl (UserNotInList c h))
      | Some i =>
          let s1 := set_socketUsers (<[c := splice1 l i]> (socketUsers s)) s in
          if Nat.ltb 0 (length (splice1 l i)) then Some (s1, [UserRemoved c h], inr tt)
          else match socketConnections s !! c with
               | None => Some (s1, [UserRemoved c h;
                                    LogWarn "Failed to disconnect socket: socket not found"], inr tt)
               | Some ws =>
                   Some (set_socketKeepAliveIntervals (delete c (socketKeepAliveIntervals s))
                           (set_socketConnections (delete c (socketConnections s)) s1),
                         [UserRemoved c h; Disconnect c ws;
                          ClearInterval (socketKeepAliveIntervals s !! c)], inr tt)
               end
      end
  end.
Proof.
  unfold disconnectChainSocket, removeSocketUser; unfold_monad. simpl.
  destruct (usersOf s c) as [l|]; [|reflexivity].
  destruct (indexOf h l) as [i|]; [|reflexivity]. simpl.
  rewrite usersOf_set_insert.
  destruct (Nat.ltb 0 _); [reflexivity|]. simpl.
  destruct (socketConnections s !! c); reflexivity.
Qed.

Lemma healthcheck_cases c s :
  healthcheckReady c s =
  Some (set_nextTimer (S (nextTimer s))
          (set_socketKeepAliveIntervals (<[c := nextTimer s]> (socketKeepAliveIntervals s)) s),
        match socketKeepAliveIntervals s !! c with
        | Some t => [ClearInterval (Some t); SetInterval c (nextTimer s)]
        | None => [SetInterval c (nextTimer s)]
        end, inr tt).
Proof.
  unfold healthcheckReady; unfold_monad. simpl.
  destruct (socketKeepAliveIntervals s !! c); reflexivity.
Qed.

Lemma splice1_sublist (l : list Z) i : splice1 l i `sublist_of` l.
Proof.
  unfold splice1. revert i. induction l as [|x l IH]; intros [|i]; simpl.
  - constructor.
  - constructor.
  - apply sublist_cons. reflexivity.
  - constructor. apply IH.
Qed.

Lemma indexOf_lt h l i : indexOf h l = Some i -> (i < length l)%nat.
Proof.
  revert i. induction l as [|y l IH]; simpl; [discriminate|].
  intros i. destruct (Z.eqb h y); [intros [= <-]; lia|].
  destruct (indexOf h l) eqn:E; [|discriminate]. intros [= <-]. specialize (IH _ eq_refl). lia.
Qed.

Lemma length_splice1 (l : list Z) i : (i < length l)%nat -> length (splice1 l i) = (length l - 1)%nat.
Proof.
  intros Hi. unfold splice1. rewrite length_app, length_take, length_drop. lia.
Qed.

Lemma default_NoDup s c : (forall l, usersOf s c = Some l -> NoDup l) -> NoDup (default [] (usersOf s c)).
Proof. destruct (usersOf s c); simpl; [auto | intros _; constructor]. Qed.

Lemma connect_inv acc c chain draws s s' ev r :
  PoolInv s -> connectChainSocket acc c chain draws s = Some (s', ev, r) -> PoolInv s'.
Proof.
  intros Hinv H. destruct chain as [ch|]; [|simpl in H; injection H as <- _ _; exact Hinv].
  rewrite connect_cases in H.
  destruct (getExclusiveRandomId draws _) as [h|] eqn:Hh; [|discriminate].
  apply getExclusiveRandomId_fresh in Hh.
  assert (Hnd : NoDup (default [] (usersOf s c) ++ [h])).
  { apply NoDup_app. split; [apply default_NoDup, Hinv|]. split; [|apply NoDup_singleton].
    intros x Hx Hx'. apply list_elem_of_singleton in Hx'. subst. contradiction. }
  assert (Hkey : forall s1, socketUsers s1 = <[c := default [] (usersOf s c) ++ [h]]> (socketUsers s) ->
            (forall c', c' <> c -> socketConnections s1 !! c' = socketConnections s !! c') ->
            PoolInv s1).
  { intros s1 Hu Hc c'. unfold usersOf. rewrite Hu.
    destruct (decide (c' = c)) as [->|Hne].
    - rewrite lookup_insert_eq. split; [intros ws0 _; eexists; split; [reflexivity|] |].
      + intros Hn. apply app_eq_nil in Hn as [_ Hn]. discriminate.
      + intros l [= <-]. exact Hnd.
    - rewrite lookup_insert_ne by congruence. rewrite (Hc c' Hne). apply Hinv. }
  destruct (socketConnections s !! c) as [ws|] eqn:Hws.
  - injection H as <- _ _. apply Hkey; reflexivity.
  - destruct (sortedRpcUrls _) as [|r0 rs]; [injection H as <- _ _; apply Hkey; reflexivity|].
    destruct (acc (r0 :: rs)); injection H as <- _ _; apply Hkey; try reflexivity.
    intros c' Hne. simpl. apply lookup_insert_ne. congruence.
Qed.

Lemma disconnect_inv c h s s' ev r :
  PoolInv s -> disconnectChainSocket c h s = Some (s', ev, r) -> PoolInv s'.
Proof.
  intros Hinv H. rewrite disconnect_cases in H.
  destruct (usersOf s c) as [l|] eqn:Hl; [|injection H as <- _ _; exact Hinv].
  destruct (indexOf h l) as [i|] eqn:Hi; [|injection H as <- _ _; exact Hinv].
  assert (Hnd : NoDup (splice1 l i)).
  { eapply sublist_NoDup; [apply (proj2 (Hinv c)); exact Hl | apply splice1_sublist]. }
  assert (Hkey : forall s1, socketUsers s1 = <[c := splice1 l i]> (socketUsers s) ->
            (forall c', c' <> c -> socketConnections s1 !! c' = socketConnections s !! c') ->
            (forall ws, socketConnections s1 !! c = Some ws -> splice1 l i <> []) ->
            PoolInv s1).
  { intros s1 Hu Hc Hne0 c'. unfold usersOf. rewrite Hu.
    destruct (decide (c' = c)) as [->|Hne].
    - rewrite lookup_insert_eq. split.
      + intros ws Hws. eexists; split; [reflexivity|]. eapply Hne0; eauto.
      + intros l' [= <-]. exact Hnd.
    - rewrite lookup_insert_ne by congruence. rewrite (Hc c' Hne). apply Hinv. }
  destruct (Nat.ltb 0 (length (splice1 l i))) eqn:Hlt.
  - injection H as <- _ _. apply Hkey; try reflexivity.
    intros ws _ Hn. rewrite Hn in Hlt. discriminate.
  - destruct (socketConnections s !! c) as [ws|] eqn:Hws; injection H as <- _ _.
    + apply Hkey; [reflexivity | |].
      * intros c' Hne. simpl. apply lookup_delete_ne. congruence.
      * intros ws' Hws'. simpl in Hws'. rewrite lookup_delete_eq in Hws'. discriminate.
    + apply Hkey; [reflexivity | |].
      * intros c' Hne. reflexivity.
      * intros ws' Hws'. simpl in Hws'. congruence.
Qed.

Lemma healthcheck_inv c s s' ev r :
  PoolInv s -> healthcheckReady c s = Some (s', ev, r) -> PoolInv s'.
Proof.
  intros Hinv H. rewrite healthcheck_cases in H. injection H as <- _ _. exact Hinv.
Qed.

Lemma reachable_inv acc s tr : Reachable acc s tr -> PoolInv s.
Proof.
  induction 1.
  - intros c. split; [intros ws Hws; discriminate | intros l Hl; discriminate].
  - eapply connect_inv; eauto.
  - eapply disconnect_inv; eauto.
  - eapply healthcheck_inv; [|eauto]. exact IHReachable.
Qed.

Lemma connect_count acc c chain draws s s' ev r c' :
  connectChainSocket acc c chain draws s = Some (s', ev, r) ->
  (length (default [] (usersOf s' c')) + removedFrom c' ev =
   length (default [] (usersOf s c')) + addedTo c' ev)%nat.
Proof.
  intros H. destruct chain as [ch|]; [|simpl in H; injection H as <- <- _; reflexivity].
  rewrite connect_cases in H.
  destruct (getExclusiveRandomId draws _) as [h|]; [|discriminate].
  destruct (socketConnections s !! c);
    [|destruct (sortedRpcUrls _) as [|r0 rs]; [|destruct (acc (r0 :: rs))]];
    injection H as <- <- _; count_tac; rewrite length_app; simpl; lia.
Qed.

Lemma disconnect_count c h s s' ev r c' :
  disconnectChainSocket c h s = Some (s', ev, r) ->
  (length (default [] (usersOf s' c')) + removedFrom c' ev =
   length (default [] (usersOf s c')) + addedTo c' ev)%nat.
Proof.
  intros H. rewrite disconnect_cases in H.
  destruct (usersOf s c) as [l|] eqn:Hl; [|injection H as <- <- _; reflexivity].
  destruct (indexOf h l) as [i|] eqn:Hi; [|injection H as <- <- _; reflexivity].
  pose proof (length_splice1 l i (indexOf_lt _ _ _ Hi)) as Hlen.
  assert (0 < length l)%nat by (pose proof (indexOf_lt _ _ _ Hi); lia).
  destruct (Nat.ltb 0 _); [|destruct (socketConnections s !! c)];
    injection H as <- <- _; count_tac; unfold usersOf in Hl; rewrite Hl; simpl; lia.
Qed.

Lemma healthcheck_count c s s' ev r c' :
  healthcheckReady c s = Some (s', ev, r) ->
  (length (default [] (usersOf s' c')) + removedFrom c' ev =
   length (default [] (usersOf s c')) + addedTo c' ev)%nat.
Proof.
  intros H. rewrite healthcheck_cases in H. injection H as <- <- _.
  destruct (socketKeepAliveIntervals s !! c); reflexivity.
Qed.

Lemma addedTo_app c l1 l2 : addedTo c (l1 ++ l2) = (addedTo c l1 + addedTo c l2)%nat.
Proof. unfold addedTo. rewrite List.filter_app, length_app. reflexivity. Qed.
Lemma removedFrom_app c l1 l2 : removedFrom c (l1 ++ l2) = (removedFrom c l1 + removedFrom c l2)%nat.
Proof. unfold removedFrom. rewrite List.filter_app, length_app. reflexivity. Qed.

Lemma intervals_step s tr s' ev :
  IntervalsInv s tr ->
  (forall c t, In (SetInterval c t) ev ->
     socketKeepAliveIntervals s' !! c = Some t \/ In (ClearInterval (Some t)) ev) ->
  (forall c t, socketKeepAliveIntervals s !! c = Some t ->
     socketKeepAliveIntervals s' !! c = Some t \/ In (ClearInterval (Some t)) ev) ->
  IntervalsInv s' (tr ++ ev).
Proof.
  intros Hinv Hnew Hold c t Hin. apply in_app_or in Hin as [Hin|Hin].
  - destruct (Hinv c t Hin) as [Hs|Hc].
    + destruct (Hold c t Hs) as [?|?]; [left; assumption | right; apply in_or_app; right; assumption].
    + right. apply in_or_app. left. exact Hc.
  - destruct (Hnew c t Hin) as [?|?]; [left; assumption | right; apply in_or_app; right; assumption].
Qed.

Lemma reachable_intervals acc s tr : Reachable acc s tr -> IntervalsInv s tr.
Proof.
  induction 1 as [| s tr chainId chain draws s' ev r _ IH Hst
                   | s tr chainId id s' ev r _ IH Hst
                   | s tr i chainId ws s' ev r _ IH Hi Hst].
  - intros c t [].
  - apply (intervals_step s); [exact IH| |].
    + destruct chain as [ch|]; [|simpl in Hst; injection Hst as <- <- _; intros ? ? []].
      rewrite connect_cases in Hst.
      destruct (getExclusiveRandomId draws _) as [h|]; [|discriminate].
      destruct (socketConnections s !! chainId);
        [|destruct (sortedRpcUrls _) as [|r0 rs]; [|destruct (acc (r0 :: rs))]];
        injection Hst as <- <- _; simpl; intros c t Hin; repeat (destruct Hin as [Hin|Hin]; [discriminate Hin|]); destruct Hin.
    + destruct chain as [ch|]; [|simpl in Hst; injection Hst as <- <- _; intros; left; assumption].
      rewrite connect_cases in Hst.
      destruct (getExclusiveRandomId draws _) as [h|]; [|discriminate].
      destruct (socketConnections s !! chainId);
        [|destruct (sortedRpcUrls _) as [|r0 rs]; [|destruct (acc (r0 :: rs))]];
        injection Hst as <- <- _; simpl; intros; left; assumption.
  - apply (intervals_step s); [exact IH| |].
    + rewrite disconnect_cases in Hst.
      destruct (usersOf s chainId) as [l|]; [|injection Hst as <- <- _; intros ? ? []].
      destruct (indexOf id l) as [k|]; [|injection Hst as <- <- _; intros ? ? []].
      destruct (Nat.ltb 0 _); [|destruct (socketConnections s !! chainId)];
        injection Hst as <- <- _; simpl; intros c t Hin; repeat (destruct Hin as [Hin|Hin]; [discriminate Hin|]); destruct Hin.
    + rewrite disconnect_cases in Hst.
      destruct (usersOf s chainId) as [l|]; [|injection Hst as <- <- _; intros; left; assumption].
      destruct (indexOf id l) as [k|]; [|injection Hst as <- <- _; intros; left; assumption].
      destruct (Nat.ltb 0 _); [|destruct (socketConnections s !! chainId)];
        injection Hst as <- <- _; simpl; intros c t Ht; try (left; assumption).
      destruct (decide (c = chainId)) as [->|Hne].
      * right. right. right. left. rewrite Ht. reflexivity.
      * left. rewrite lookup_delete_ne by congruence. exact Ht.
  - rewrite healthcheck_cases in Hst. injection Hst as <- <- _. simpl.
    apply (intervals_step s); [exact IH| |].
    + intros c t Hin. left.
      destruct (socketKeepAliveIntervals s !! chainId);
        simpl in Hin; repeat match type of Hin with _ \/ _ => destruct Hin as [Hin|Hin] end;
        try discriminate Hin; try exact (False_ind _ Hin);
        injection Hin as <- <-; apply lookup_insert_eq.
    + intros c t Ht.
      destruct (decide (c = chainId)) as [->|Hne].
      * right. rewrite Ht. left. reflexivity.
      * left. simpl. rewrite lookup_insert_ne by congruence. exact Ht.
Qed.

Lemma reachable_count acc s tr c :
  Reachable acc s tr ->
  (length (default [] (usersOf s c)) + removedFrom c tr = addedTo c tr)%nat.
Proof.
  induction 1 as [| s tr chainId chain draws s' ev r _ IH Hst
                   | s tr chainId id s' ev r _ IH Hst
                   | s tr i chainId ws s' ev r _ IH Hi Hst].
  - reflexivity.
  - pose proof (connect_count _ _ _ _ _ _ _ _ c Hst).
    rewrite addedTo_app, removedFrom_app. lia.
  - pose proof (disconnect_count _ _ _ _ _ _ c Hst).
    rewrite addedTo_app, removedFrom_app. lia.
  - pose proof (healthcheck_count _ _ _ _ _ c Hst).
    rewrite addedTo_app, removedFrom_app. unfold usersOf in *. simpl in *. lia.
Qed.

Lemma indexOf_app_notin h (a b : list Z) : ~ In h a -> indexOf h (a ++ h :: b) = Some (length a).
Proof.
  induction a as [|y a IH]; simpl; intros Hn.
  - rewrite Z.eqb_refl. reflexivity.
  - destruct (Z.eqb_spec h y) as [->|_]; [tauto|]. rewrite IH by tauto. reflexivity.
Qed.

Lemma splice1_app (a b : list Z) h : splice1 (a ++ h :: b) (length a) = a ++ b.
Proof.
  unfold splice1. rewrite take_app_length. f_equal.
  induction a as [|y a IH]; simpl; [reflexivity|exact IH].
Qed.

Lemma set_socketUsers_twice m1 m2 s :
  set_socketUsers m1 (set_socketUsers m2 s) = set_socketUsers m1 s.
Proof. reflexivity. Qed.

Lemma notin_elem (h : Z) l : h ∉ l -> ~ In h l.
Proof. intros Hn Hin. apply Hn. apply list_elem_of_In. exact Hin. Qed.

(** Acquiring a chain that has a provider and users, then releasing the
    user handed out. *)
Lemma acquire_release_live acc c ch draws s l ws h :
  usersOf s c = Some l -> l <> [] -> socketConnections s !! c = Some ws ->
  getExclusiveRandomId draws l = Some h ->
  connectChainSocket acc c (Some ch) draws s =
    Some (set_socketUsers (<[c := l ++ [h]]> (socketUsers s)) s, [UserAdded c h], inr (h, ws)) /\
  disconnectChainSocket c h (set_socketUsers (<[c := l ++ [h]]> (socketUsers s)) s) =
    Some (s, [UserRemoved c h], inr tt).
Proof.
  intros Hl Hne Hws Hh. split.
  - rewrite connect_cases, Hl. simpl. rewrite Hh, Hws. reflexivity.
  - rewrite disconnect_cases, usersOf_set_insert.
    rewrite (indexOf_app_notin h l []) by (apply notin_elem; eapply getExclusiveRandomId_fresh; eauto).
    rewrite (splice1_app l [] h), app_nil_r.
    destruct l as [|x l']; [congruence|]. simpl.
    rewrite insert_insert_eq, insert_id by exact Hl.
    rewrite set_socketUsers_twice, set_socketUsers_id. reflexivity.
Qed.

Lemma reach_first : Reachable acceptAll afterFirstConnect.1 ([] ++ afterFirstConnect.2).
Proof. apply reach_connect_run; [apply reach_init | vm_compute; discriminate]. Qed.

Lemma reach_keepalive :
  Reachable acceptAll afterKeepAlive.1 (([] ++ afterFirstConnect.2) ++ afterKeepAlive.2).
Proof.
  eapply (reach_healthcheck _ _ _ 0%nat "polkadot" polkadotWs _ _ (inr tt)).
  - exact reach_first.
  - vm_compute. reflexivity.
  - vm_compute. reflexivity.
Qed.

(** X1: In every reachable state, a chain with a stored provider has a
    users list, and that list is not empty. *)
Theorem live_provider_has_users acc s tr c ws :
  Reachable acc s tr -> socketConnections s !! c = Some ws ->
  exists l, usersOf s c = Some l /\ l <> [].
Proof. intros Hr. apply (proj1 (reachable_inv _ _ _ Hr c)). Qed.

Lemma live_provider_has_users_witness :
  exists l, usersOf afterFirstConnect.1 "polkadot" = Some l /\ l <> [].
Proof.
  apply (live_provider_has_users acceptAll _ _ "polkadot" polkadotWs reach_first).
  vm_compute. reflexivity.
Defined.

(** X2: In every reachable state, no user id appears twice in a chain's
    users list. *)
Theorem socket_users_nodup acc s tr c l :
  Reachable acc s tr -> usersOf s c = Some l -> NoDup l.
Proof. intros Hr. apply (proj2 (reachable_inv _ _ _ Hr c)). Qed.

Lemma socket_users_nodup_witness : NoDup [50000000].
Proof.
  apply (socket_users_nodup acceptAll _ _ "polkadot" [50000000] reach_first).
  vm_compute. reflexivity.
Defined.

(** X3: In every reachable state, the length of a chain's users list plus
    the number of users removed from it equals the number of users added
    to it, counted over the events of the run. *)
Theorem socket_users_count acc s tr c :
  Reachable acc s tr ->
  (length (default [] (usersOf s c)) + removedFrom c tr = addedTo c tr)%nat.
Proof. apply reachable_count. Qed.

Lemma socket_users_count_witness :
  (length (default [] (usersOf afterFirstConnect.1 "polkadot")) +
     removedFrom "polkadot" ([] ++ afterFirstConnect.2) =
   addedTo "polkadot" ([] ++ afterFirstConnect.2))%nat.
Proof. exact (socket_users_count acceptAll _ _ "polkadot" reach_first). Defined.

(** X4: In every reachable state, every keepalive interval that was set
    for a chain is still the chain's stored interval, or it has been
    cleared. *)
Theorem keepalive_intervals_cleared acc s tr c t :
  Reachable acc s tr -> In (SetInterval c t) tr ->
  socketKeepAliveIntervals s !! c = Some t \/ In (ClearInterval (Some t)) tr.
Proof. intros Hr. apply (reachable_intervals _ _ _ Hr). Qed.

Lemma keepalive_intervals_cleared_witness :
  socketKeepAliveIntervals afterKeepAlive.1 !! "polkadot" = Some 0%nat \/
  In (ClearInterval (Some 0%nat)) (([] ++ afterFirstConnect.2) ++ afterKeepAlive.2).
Proof.
  apply (keepalive_intervals_cleared acceptAll _ _ "polkadot" 0%nat reach_keepalive).
  vm_compute. right. right. left. reflexivity.
Defined.

(** X5: removeSocketUser removes only the first occurrence of the id from
    the chain's list and keeps the other ids in order. *)
Theorem removeSocketUser_first_occurrence c h s a b :
  usersOf s c = Some (a ++ h :: b) -> ~ In h a ->
  removeSocketUser c h s =
    Some (set_socketUsers (<[c := a ++ b]> (socketUsers s)) s, [UserRemoved c h], inr tt).
Proof.
  intros Hu Hn. unfold removeSocketUser; unfold_monad. simpl.
  rewrite Hu, (indexOf_app_notin h a b Hn), splice1_app. reflexivity.
Qed.

Lemma removeSocketUser_first_occurrence_witness :
  removeSocketUser "polkadot" 7 (set_socketUsers {["polkadot" := [3; 7; 5; 7]]} emptyConnector) =
    Some (set_socketUsers (<["polkadot" := [3; 5; 7]]>
            (socketUsers (set_socketUsers {["polkadot" := [3; 7; 5; 7]]} emptyConnector)))
            (set_socketUsers {["polkadot" := [3; 7; 5; 7]]} emptyConnector),
          [UserRemoved "polkadot" 7], inr tt).
Proof.
  apply (removeSocketUser_first_occurrence "polkadot" 7 _ [3] [5; 7]).
  - vm_compute. reflexivity.
  - simpl. lia.
Defined.

(** X6: addSocketUser followed by removeSocketUser of the id it returned
    leaves the users map as it was, except that a missing entry for the
    chain is created as []. When the entry existed, the state is
    unchanged. *)
Theorem add_then_remove_restores_users draws c s h :
  getExclusiveRandomId draws (default [] (usersOf s c)) = Some h ->
  (let* id := addSocketUser draws c in removeSocketUser c id) s =
    Some (set_socketUsers (<[c := default [] (usersOf s c)]> (socketUsers s)) s,
          [UserAdded c h; UserRemoved c h], inr tt) /\
  (usersOf s c <> None ->
   (let* id := addSocketUser draws c in removeSocketUser c id) s =
     Some (s, [UserAdded c h; UserRemoved c h], inr tt)).
Proof.
  intros Hh.
  assert (Hrt : (let* id := addSocketUser draws c in removeSocketUser c id) s =
    Some (set_socketUsers (<[c := default [] (usersOf s c)]> (socketUsers s)) s,
          [UserAdded c h; UserRemoved c h], inr tt)).
  { unfold addSocketUser, removeSocketUser; unfold_monad. simpl.
    change (match usersOf s c with Some l => l | None => [] end) with (default [] (usersOf s c)).
    rewrite Hh. simpl. rewrite usersOf_set_insert.
    rewrite (indexOf_app_notin h _ []) by (apply notin_elem; eapply getExclusiveRandomId_fresh; eauto).
    simpl. rewrite (splice1_app _ [] h), app_nil_r, insert_insert_eq. reflexivity. }
  split; [exact Hrt|].
  intros Hn. rewrite Hrt. destruct (usersOf s c) as [l|] eqn:Hl; [|congruence]. simpl.
  unfold usersOf in Hl. rewrite insert_id by exact Hl. rewrite set_socketUsers_id. reflexivity.
Qed.

Lemma add_then_remove_restores_users_witness :
  (let* id := addSocketUser [1/2]%Q "polkadot" in removeSocketUser "polkadot" id) emptyConnector =
    Some (set_socketUsers (<["polkadot" := []]> (socketUsers emptyConnector)) emptyConnector,
          [UserAdded "polkadot" 50000000; UserRemoved "polkadot" 50000000], inr tt).
Proof.
  refine (proj1 (add_then_remove_restores_users [1/2]%Q "polkadot" emptyConnector 50000000 _)).
  vm_compute. reflexivity.
Defined.

(** X7: send on a chain whose provider is stored ends in the state it
    started from, whatever the response. *)
Theorem send_on_live_chain_restores_state {T} acc s tr c ch draws ws (response : Exn + T) :
  Reachable acc s tr -> socketConnections s !! c = Some ws ->
  getExclusiveRandomId draws (default [] (usersOf s c)) <> None ->
  exists ev, send acc c (Some ch) draws response s = Some (s, ev, response).
Proof.
  intros Hr Hws Hd.
  destruct (proj1 (reachable_inv _ _ _ Hr c) ws Hws) as (l & Hl & Hne).
  rewrite Hl in Hd. simpl in Hd.
  destruct (getExclusiveRandomId draws l) as [h|] eqn:Hh; [|congruence].
  destruct (acquire_release_live acc c ch draws s l ws h Hl Hne Hws Hh) as [Hc Hdis].
  unfold send, bind at 1. rewrite Hc.
  destruct response as [e|v]; unfold bind, emit, ret, throw; simpl; rewrite Hdis;
    eexists; reflexivity.
Qed.

Lemma send_on_live_chain_restores_state_witness :
  exists ev, send acceptAll "polkadot" (Some polkadot) [1/4]%Q (inr 7 : Exn + Z) afterFirstConnect.1
             = Some (afterFirstConnect.1, ev, inr 7).
Proof.
  apply (send_on_live_chain_restores_state acceptAll _ _ "polkadot" polkadot [1/4]%Q polkadotWs
           (inr 7) reach_first).
  - vm_compute. reflexivity.
  - vm_compute. discriminate.
Defined.

(** X8: On a chain whose provider is stored, subscribe followed by a call
    of its unsubscribe closure (the unsubscribe call succeeding) returns
    the pool to the state it started from. The closure holds the chain's
    provider. *)
Theorem subscribe_unsubscribe_restores_state acc s tr c ch draws ws subId ack :
  Reachable acc s tr -> socketConnections s !! c = Some ws ->
  getExclusiveRandomId draws (default [] (usersOf s c)) <> None ->
  exists s1 ev1 ev2 u,
    subscribe acc c (Some ch) draws (inr subId) s = Some (s1, ev1, inr u) /\
    unsub_ws u = ws /\
    runUnsubscribe u (inr ack) s1 = Some (s, ev2, inr tt).
Proof.
  intros Hr Hws Hd.
  destruct (proj1 (reachable_inv _ _ _ Hr c) ws Hws) as (l & Hl & Hne).
  rewrite Hl in Hd. simpl in Hd.
  destruct (getExclusiveRandomId draws l) as [h|] eqn:Hh; [|congruence].
  destruct (acquire_release_live acc c ch draws s l ws h Hl Hne Hws Hh) as [Hc Hdis].
  unfold subscribe, bind at 1. rewrite Hc. simpl.
  eexists _, _, _, _. split; [reflexivity|]. split; [reflexivity|].
  simpl. exact Hdis.
Qed.

Lemma subscribe_unsubscribe_restores_state_witness :
  exists s1 ev1 ev2 u,
    subscribe acceptAll "polkadot" (Some polkadot) [1/4]%Q (inr "0x01") afterFirstConnect.1
      = Some (s1, ev1, inr u) /\
    unsub_ws u = polkadotWs /\
    runUnsubscribe u (inr true) s1 = Some (afterFirstConnect.1, ev2, inr tt).
Proof.
  apply (subscribe_unsubscribe_restores_state acceptAll _ _ "polkadot" polkadot [1/4]%Q polkadotWs
           "0x01" true reach_first).
  - vm_compute. reflexivity.
  - vm_compute. discriminate.
Defined.

(** X9: send on a chain with no provider and no users constructs one
    provider and disconnects it. It ends with no provider stored, an empty
    users list and no keepalive interval for the chain. *)
Theorem send_on_idle_chain_opens_and_closes {T} acc s c ch r0 draws (response : Exn + T) :
  socketConnections s !! c = None -> default [] (usersOf s c) = [] ->
  default [] (rpcs ch) <> [] -> acc (sortedRpcUrls (default [] (rpcs ch))) = true ->
  exists s' ev,
    send acc c (Some ch) (r0 :: draws) response s = Some (s', ev, response) /\
    constructedFor c ev = 1%nat /\ disconnectedFor c ev = 1%nat /\
    socketConnections s' = socketConnections s /\ usersOf s' c = Some [] /\
    socketKeepAliveIntervals s' !! c = None.
Proof.
  intros Hc Hu Hne Hacc.
  assert (Hg : getExclusiveRandomId (r0 :: draws) (default [] (usersOf s c)) = Some (getRandomId r0))
    by (rewrite Hu; reflexivity).
  destruct (sortedRpcUrls (default [] (rpcs ch))) as [|x xs] eqn:Es;
    [apply sortedRpcUrls_nil in Es; contradiction|].
  set (ws := {| ws_id := nextWsId s; ws_endpoints := x :: xs; ws_autoConnectMs := 1000 |}).
  assert (Hconn : exists s1,
    connectChainSocket acc c (Some ch) (r0 :: draws) s =
      Some (s1, [UserAdded c (getRandomId r0); NewWsProvider c ws], inr (getRandomId r0, ws)) /\
    usersOf s1 c = Some [getRandomId r0] /\
    socketConnections s1 = <[c := ws]> (socketConnections s) /\
    socketKeepAliveIntervals s1 = socketKeepAliveIntervals s).
  { rewrite connect_cases, Hg, Hc, Es, Hacc. eexists; split; [reflexivity|].
    rewrite Hu. unfold usersOf; simpl. rewrite lookup_insert_eq. auto. }
  destruct Hconn as (s1 & Hconn & Hu1 & Hc1 & Hi1).
  assert (Hdis : disconnectChainSocket c (getRandomId r0) s1 =
    Some (set_socketKeepAliveIntervals (delete c (socketKeepAliveIntervals s1))
            (set_socketConnections (delete c (socketConnections s1))
               (set_socketUsers (<[c := []]> (socketUsers s1)) s1)),
          [UserRemoved c (getRandomId r0); Disconnect c ws;
           ClearInterval (socketKeepAliveIntervals s1 !! c)], inr tt)).
  { rewrite disconnect_cases, Hu1. simpl. rewrite Z.eqb_refl. simpl.
    rewrite Hc1, lookup_insert_eq. reflexivity. }
  unfold send, bind at 1. rewrite Hconn.
  destruct response as [e|v]; unfold bind, emit, ret, throw; simpl; rewrite Hdis;
    eexists _, _; (split; [reflexivity|]); simpl;
    unfold constructedFor, disconnectedFor; simpl;
    rewrite ?bool_decide_eq_true_2 by reflexivity; simpl;
    (split; [reflexivity|]); (split; [reflexivity|]);
    rewrite Hc1, delete_insert_id by exact Hc;
    (split; [reflexivity|]); unfold usersOf; simpl;
    rewrite lookup_insert_eq, lookup_delete_eq; split; reflexivity.
Qed.

Lemma send_on_idle_chain_opens_and_closes_witness :
  exists s' ev,
    send acceptAll "polkadot" (Some polkadot) [1/2]%Q (inr 7 : Exn + Z) emptyConnector
      = Some (s', ev, inr 7) /\
    constructedFor "polkadot" ev = 1%nat /\ disconnectedFor "polkadot" ev = 1%nat /\
    socketConnections s' = socketConnections emptyConnector /\ usersOf s' "polkadot" = Some [] /\
    socketKeepAliveIntervals s' !! "polkadot" = None.
Proof.
  apply (send_on_idle_chain_opens_and_closes acceptAll emptyConnector "polkadot" polkadot (1/2)%Q []
           (inr 7)).
  - reflexivity.
  - reflexivity.
  - discriminate.
  - reflexivity.
Defined.

(** X10: connectChainSocket, disconnectChainSocket and the healthcheck
    set-up for a chain leave the map entries of every other chain
    unchanged. *)
Theorem operations_touch_only_their_chain c c' :
  c <> c' ->
  (forall acc chain draws s s' ev r,
     connectChainSocket acc c chain draws s = Some (s', ev, r) -> sameChainEntries c' s s') /\
  (forall h s s' ev r,
     disconnectChainSocket c h s = Some (s', ev, r) -> sameChainEntries c' s s') /\
  (forall s s' ev r,
     healthcheckReady c s = Some (s', ev, r) -> sameChainEntries c' s s').
Proof.
  intros Hne. unfold sameChainEntries, usersOf. split; [|split].
  - intros acc [ch|] draws s s' ev r H; [|simpl in H; injection H as <- _ _; auto].
    rewrite connect_cases in H.
    destruct (getExclusiveRandomId draws _) as [h|]; [|discriminate].
    destruct (socketConnections s !! c);
      [|destruct (sortedRpcUrls _) as [|r0 rs]; [|destruct (acc (r0 :: rs))]];
      injection H as <- _ _; simpl;
      rewrite ?lookup_insert_ne by congruence; auto.
  - intros h s s' ev r H. rewrite disconnect_cases in H.
    destruct (usersOf s c) as [l|]; [|injection H as <- _ _; auto].
    destruct (indexOf h l) as [i|]; [|injection H as <- _ _; auto].
    destruct (Nat.ltb 0 _); [|destruct (socketConnections s !! c)];
      injection H as <- _ _; simpl;
      rewrite ?lookup_insert_ne, ?lookup_delete_ne by congruence; auto.
  - intros s s' ev r H. rewrite healthcheck_cases in H. injection H as <- _ _. simpl.
    rewrite lookup_insert_ne by congruence. auto.
Qed.

Lemma operations_touch_only_their_chain_witness :
  (forall acc chain draws s s' ev r,
     connectChainSocket acc "polkadot" chain draws s = Some (s', ev, r) ->
     sameChainEntries "kusama" s s') /\
  (forall h s s' ev r,
     disconnectChainSocket "polkadot" h s = Some (s', ev, r) -> sameChainEntries "kusama" s s') /\
  (forall s s' ev r,
     healthcheckReady "polkadot" s = Some (s', ev, r) -> sameChainEntries "kusama" s s').
Proof. apply operations_touch_only_their_chain. discriminate. Defined.

(** X11: The providers' send passes a result through and rethrows every
    rejection unchanged. It emits "error" with the rejection exactly when
    its reason is not "processing response error". An undefined or null
    rejection makes it reject with a TypeError instead. *)
Theorem rpcProviderSend_rethrows v err :
  rpcProviderSend (inr v) = ([], Returned v) /\
  (err <> JsUndefined -> err <> JsNull ->
     snd (rpcProviderSend (inl err)) = Rejected err /\
     (fst (rpcProviderSend (inl err)) = [err] <->
        readReason err <> inr (JsString "processing response error")) /\
     (fst (rpcProviderSend (inl err)) = [] <->
        readReason err = inr (JsString "processing response error"))) /\
  (err = JsUndefined \/ err = JsNull ->
     rpcProviderSend (inl err) = ([], RejectedWith TypeErrorUndefined)).
Proof.
  split; [reflexivity|]. split.
  - intros Hu Hn. unfold rpcProviderSend, isUnhealthyRpcError.
    assert (Hr : exists reason, readReason err = inr reason).
    { destruct err; try congruence; eexists; reflexivity. }
    destruct Hr as [reason Hr]. rewrite Hr. simpl.
    destruct (includesString ["processing response error"] reason) eqn:E; simpl.
    + unfold includesString in E. destruct reason; try discriminate. simpl in E.
      rewrite orb_false_r in E. apply String.eqb_eq in E. subst.
      split; [reflexivity|]. split; split; intros; congruence.
    + assert (reason <> JsString "processing response error").
      { intros ->. discriminate E. }
      split; [reflexivity|]. split; split; intros; congruence.
  - intros [-> | ->]; reflexivity.
Qed.

Lemma rpcProviderSend_rethrows_witness :
  (snd (rpcProviderSend (inl (JsObject [("reason"%string, JsString "timeout")]))) =
     Rejected (JsObject [("reason"%string, JsString "timeout")])) /\
  (fst (rpcProviderSend (inl (JsObject [("reason"%string, JsString "timeout")]))) =
     [JsObject [("reason"%string, JsString "timeout")]]) /\
  (rpcProviderSend (inl JsNull) = ([], RejectedWith TypeErrorUndefined)).
Proof.
  destruct (rpcProviderSend_rethrows (JsNumber 1) (JsObject [("reason"%string, JsString "timeout")]))
    as (_ & H1 & _).
  destruct (H1 ltac:(discriminate) ltac:(discriminate)) as (Hs & [_ Hf] & _).
  split; [exact Hs|]. split; [apply Hf; vm_compute; discriminate|].
  destruct (rpcProviderSend_rethrows (JsNumber 1) JsNull) as (_ & _ & H3).
  apply H3. right. reflexivity.
Defined.

Lemma trimStart_spaces sp s :
  forallChars isJsSpace sp = true -> isJsSpace (match s with String a _ => a | EmptyString => " "%char end) = false ->
  trimStart (sp ++ s)%string = s.
Proof.
  induction sp as [|a sp IH]; simpl.
  - intros _ H. destruct s as [|a s]; simpl in *; [reflexivity|]. rewrite H. reflexivity.
  - intros H Hs. apply andb_prop in H as [Ha Hsp]. rewrite Ha. apply IH; assumption.
Qed.

Lemma hexPrefix_app ds rest acc :
  forallChars (fun a => if hexDigit a then true else false) ds = true ->
  match rest with String a _ => hexDigit a = None | EmptyString => True end ->
  hexPrefix (ds ++ rest)%string acc = hexPrefix ds acc.
Proof.
  revert acc. induction ds as [|a ds IH]; simpl; intros acc Hds Hr.
  - destruct rest as [|a rest]; simpl; [reflexivity|]. rewrite Hr. reflexivity.
  - apply andb_prop in Hds as [Ha Hds]. destruct (hexDigit a); [|discriminate].
    apply IH; assumption.
Qed.

Lemma hexDigit_nonneg a d : hexDigit a = Some d -> 0 <= d.
Proof.
  unfold hexDigit.
  destruct ((48 <=? _) && (_ <=? 57)) eqn:E1; [intros [= <-]; apply andb_prop in E1 as [E1 _]; lia|].
  destruct ((97 <=? _) && (_ <=? 102)) eqn:E2; [intros [= <-]; apply andb_prop in E2 as [E2 _]; lia|].
  destruct ((65 <=? _) && (_ <=? 70)) eqn:E3; [intros [= <-]; apply andb_prop in E3 as [E3 _]; lia|].
  discriminate.
Qed.

Lemma hexPrefix_nonneg s acc : 0 <= acc -> 0 <= hexPrefix s acc.
Proof.
  revert acc. induction s as [|a s IH]; simpl; intros acc Hacc; [exact Hacc|].
  destruct (hexDigit a) as [d|] eqn:Hd; [|exact Hacc].
  apply IH. pose proof (hexDigit_nonneg a d Hd). lia.
Qed.

Lemma parseIntMath16_hex sp x ds rest :
  forallChars isJsSpace sp = true -> (x = "x"%char \/ x = "X"%char) ->
  ds <> EmptyString -> forallChars (fun a => if hexDigit a then true else false) ds = true ->
  match rest with String a _ => hexDigit a = None | EmptyString => True end ->
  parseIntMath16 (sp ++ String "0" (String x (ds ++ rest)))%string = Some (hexPrefix ds 0).
Proof.
  intros Hsp Hx Hds Hhex Hrest. unfold parseIntMath16.
  rewrite trimStart_spaces by (exact Hsp || reflexivity).
  assert (Hxb : (Ascii.eqb x "x" || Ascii.eqb x "X")%bool = true) by (destruct Hx as [-> | ->]; reflexivity).
  simpl. rewrite Hxb.
  destruct ds as [|a ds']; [congruence|]. simpl in Hhex |- *.
  apply andb_prop in Hhex as [Ha Hds'].
  destruct (hexDigit a) as [d|] eqn:Hd; [|discriminate].
  rewrite (hexPrefix_app ds' rest) by assumption.
  f_equal. lia.
Qed.

(** X12: isHealthyRpc reads an answer made of spaces, "0x" or "0X", hex
    digits whose value is below 2^53 and a tail that does not start with a
    hex digit as that hex number, and compares it with the chain id. *)
Theorem isHealthyRpc_hex_answer probe url chainId sp x ds rest :
  forallChars isJsSpace sp = true -> (x = "x"%char \/ x = "X"%char) ->
  ds <> EmptyString -> forallChars (fun a => if hexDigit a then true else false) ds = true ->
  match rest with String a _ => hexDigit a = None | EmptyString => True end ->
  hexPrefix ds 0 < 2 ^ 53 ->
  probe url chainId = Answered (sp ++ String "0" (String x (ds ++ rest)))%string ->
  isHealthyRpc probe url chainId = Z.eqb (hexPrefix ds 0) chainId.
Proof.
  intros Hsp Hx Hds Hhex Hrest Hlt Hp. unfold isHealthyRpc, parseInt16.
  rewrite Hp, (parseIntMath16_hex sp x ds rest Hsp Hx Hds Hhex Hrest).
  rewrite numberOfInteger_exact; [reflexivity|].
  rewrite Z.abs_eq by (apply hexPrefix_nonneg; lia). exact Hlt.
Qed.

Lemma isHealthyRpc_hex_answer_witness :
  isHealthyRpc (fun _ _ => Answered " 0X2aZ") "u" 42 = Z.eqb (hexPrefix "2a" 0) 42.
Proof.
  apply (isHealthyRpc_hex_answer (fun _ _ => Answered " 0X2aZ") "u" 42 " " "X"%char "2a" "Z");
    try reflexivity.
  - right. reflexivity.
  - discriminate.
Defined.

Lemma stripPrefix_Some p s t : stripPrefix p s = Some t -> s = (p ++ t)%string.
Proof.
  revert s. induction p as [|a p IH]; intros s; simpl.
  - intros [= <-]. reflexivity.
  - destruct s as [|b s]; [discriminate|].
    destruct (Ascii.eqb_spec a b) as [->|]; [|discriminate]. intros H.
    apply (f_equal (String b)). auto.
Qed.

Lemma spanClass_spec t g r : spanClass t = (g, r) -> t = (g ++ r)%string /\ forallChars inClassAz g = true.
Proof.
  revert g r. induction t as [|a t IH]; simpl; intros g r H.
  - injection H as <- <-. auto.
  - destruct (inClassAz a) eqn:Ha.
    + destruct (spanClass t) as [g' r'] eqn:E. injection H as <- <-.
      destruct (IH g' r' eq_refl) as [-> Hg]. simpl. rewrite Ha, Hg. auto.
    + injection H as <- <-. auto.
Qed.

Lemma spanClass_app g t :
  forallChars inClassAz g = true ->
  match t with String a _ => inClassAz a = false | EmptyString => True end ->
  spanClass (g ++ t)%string = (g, t).
Proof.
  induction g as [|a g IH]; simpl; intros Hg Ht.
  - destruct t as [|a t]; simpl; [reflexivity|]. rewrite Ht. reflexivity.
  - apply andb_prop in Hg as [Ha Hg]. rewrite Ha, IH by assumption. reflexivity.
Qed.

Lemma getSubstitution_no_dollar m g k :
  forallChars (fun a => negb (Ascii.eqb a "$")) k = true -> getSubstitution m g k = k.
Proof.
  induction k as [|a k IH]; simpl; [reflexivity|].
  intros H. apply andb_prop in H as [Ha Hk]. apply negb_true_iff in Ha. rewrite Ha. f_equal. auto.
Qed.

Lemma getSubstitution_ws m g k :
  getSubstitution m g ("https://$1.api.onfinality.io/ws?apikey=" ++ k) =
    ("https://" ++ g ++ ".api.onfinality.io/ws?apikey=" ++ getSubstitution m g k)%string.
Proof. reflexivity. Qed.

Lemma getSubstitution_rpc m g k :
  getSubstitution m g ("https://$1.api.onfinality.io/rpc?apikey=" ++ k) =
    ("https://" ++ g ++ ".api.onfinality.io/rpc?apikey=" ++ getSubstitution m g k)%string.
Proof. reflexivity. Qed.

Lemma stripPrefix_app p t : stripPrefix p (p ++ t)%string = Some t.
Proof.
  induction p as [|a p IH]; [reflexivity|]. simpl. rewrite Ascii.eqb_refl. exact IH.
Qed.
Lemma matchOnfinality_spec path u g :
  matchOnfinality path u = Some g ->
  g <> EmptyString /\ forallChars inClassAz g = true /\
  (u = ("https://" ++ g ++ ".api.onfinality.io/" ++ path)%string \/
   u = ("https://" ++ g ++ ".api.onfinality.io/" ++ path ++ "/")%string).
Proof.
  unfold matchOnfinality.
  destruct (stripPrefix "https://" u) as [t|] eqn:Hs; [|discriminate].
  apply stripPrefix_Some in Hs.
  destruct (spanClass t) as [g' rest] eqn:Ht.
  apply spanClass_spec in Ht as [-> Hg].
  destruct g' as [|a g'']; [discriminate|].
  destruct (String.eqb rest (".api.onfinality.io/" ++ path)%string) eqn:E1;
  destruct (String.eqb rest (".api.onfinality.io/" ++ path ++ "/")%string) eqn:E2;
  simpl; try discriminate; intros [= <-].
  - apply String.eqb_eq in E1. subst.
    split; [intros Hc; discriminate Hc|]. split; [exact Hg|]. left. reflexivity.
  - apply String.eqb_eq in E1. subst.
    split; [intros Hc; discriminate Hc|]. split; [exact Hg|]. left. reflexivity.
  - apply String.eqb_eq in E2. subst.
    split; [intros Hc; discriminate Hc|]. split; [exact Hg|]. right. reflexivity.
Qed.

Lemma matchOnfinality_host n rest path :
  n <> EmptyString -> forallChars inClassAz n = true ->
  match rest with String a _ => inClassAz a = false | EmptyString => True end ->
  matchOnfinality path ("https://" ++ n ++ rest)%string =
    if String.eqb rest (".api.onfinality.io/" ++ path)%string ||
       String.eqb rest (".api.onfinality.io/" ++ path ++ "/")%string
    then Some n else None.
Proof.
  intros Hne Hn Hr. unfold matchOnfinality. rewrite stripPrefix_app.
  rewrite spanClass_app by assumption.
  destruct n; [congruence|]. reflexivity.
Qed.

Lemma matchOnfinality_resolved g k path :
  g <> EmptyString -> forallChars inClassAz g = true ->
  (path = "public-ws" \/ path = "rpc") ->
  matchOnfinality path ("https://" ++ g ++ ".api.onfinality.io/ws?apikey=" ++ k)%string = None /\
  matchOnfinality path ("https://" ++ g ++ ".api.onfinality.io/rpc?apikey=" ++ k)%string = None.
Proof.
  intros Hne Hg Hp.
  rewrite !matchOnfinality_host by (assumption || reflexivity).
  destruct Hp as [-> | ->]; split; reflexivity.
Qed.

(** X13: With a key that contains no '$', resolveRpcUrl rewrites
    https://<name>.api.onfinality.io/public-ws to
    https://<name>.api.onfinality.io/ws?apikey=<key> and
    https://<name>.api.onfinality.io/rpc to
    https://<name>.api.onfinality.io/rpc?apikey=<key>, with or without a
    trailing slash. *)
Lemma resolveRpcUrl_onfinality key n slash :
  forallChars (fun a => negb (Ascii.eqb a "$")) key = true ->
  n <> EmptyString -> forallChars inClassAz n = true ->
  (slash = "" \/ slash = "/")%string ->
  resolveRpcUrl key ("https://" ++ n ++ ".api.onfinality.io/public-ws" ++ slash)%string =
    ("https://" ++ n ++ ".api.onfinality.io/ws?apikey=" ++ key)%string /\
  resolveRpcUrl key ("https://" ++ n ++ ".api.onfinality.io/rpc" ++ slash)%string =
    ("https://" ++ n ++ ".api.onfinality.io/rpc?apikey=" ++ key)%string.
Proof.
  intros Hk Hne Hn Hs.
  destruct (matchOnfinality_resolved n key "rpc" Hne Hn (or_intror eq_refl)) as [Hw _].
  assert (H1 : matchOnfinality "public-ws" ("https://" ++ n ++ ".api.onfinality.io/public-ws" ++ slash)%string = Some n)
    by (rewrite matchOnfinality_host by (assumption || (destruct Hs as [-> | ->]; reflexivity));
        destruct Hs as [-> | ->]; reflexivity).
  assert (H2 : matchOnfinality "public-ws" ("https://" ++ n ++ ".api.onfinality.io/rpc" ++ slash)%string = None)
    by (rewrite matchOnfinality_host by (assumption || (destruct Hs as [-> | ->]; reflexivity));
        destruct Hs as [-> | ->]; reflexivity).
  assert (H3 : matchOnfinality "rpc" ("https://" ++ n ++ ".api.onfinality.io/rpc" ++ slash)%string = Some n)
    by (rewrite matchOnfinality_host by (assumption || (destruct Hs as [-> | ->]; reflexivity));
        destruct Hs as [-> | ->]; reflexivity).
  unfold resolveRpcUrl, replaceWhole. rewrite H1, H2.
  rewrite getSubstitution_ws, (getSubstitution_no_dollar _ _ key Hk), Hw, H3, getSubstitution_rpc,
    (getSubstitution_no_dollar _ _ key Hk).
  split; reflexivity.
Qed.

Lemma resolveRpcUrl_onfinality_witness :
  resolveRpcUrl "K3y" "https://polkadot.api.onfinality.io/public-ws/" =
    "https://polkadot.api.onfinality.io/ws?apikey=K3y" /\
  resolveRpcUrl "K3y" "https://polkadot.api.onfinality.io/rpc/" =
    "https://polkadot.api.onfinality.io/rpc?apikey=K3y".
Proof.
  apply (resolveRpcUrl_onfinality "K3y" "polkadot" "/"); [reflexivity | discriminate | reflexivity | right; reflexivity].
Defined.

Lemma string_app_empty s : (s ++ "")%string = s.
Proof. induction s as [|a s IH]; [reflexivity|]. exact (f_equal (String a) IH). Qed.

Lemma matchOnfinality_shape path u g :
  matchOnfinality path u = Some g ->
  exists slash, g <> EmptyString /\ forallChars inClassAz g = true /\
    (slash = "" \/ slash = "/")%string /\
    u = ("https://" ++ g ++ ".api.onfinality.io/" ++ path ++ slash)%string.
Proof.
  intros H. apply matchOnfinality_spec in H as (Hne & Hg & [Hu | Hu]).
  - exists ""%string. rewrite string_app_empty. auto.
  - exists "/"%string. auto.
Qed.

(** X14: resolveRpcUrl changes only urls of the form
    https://<name>.api.onfinality.io/public-ws or .../rpc, with an
    optional trailing slash and a name made of characters of [A-z-]. *)
Lemma resolveRpcUrl_only_onfinality_changes key u :
  resolveRpcUrl key u <> u ->
  exists n path slash, n <> EmptyString /\ forallChars inClassAz n = true /\
    (path = "public-ws" \/ path = "rpc")%string /\ (slash = "" \/ slash = "/")%string /\
    u = ("https://" ++ n ++ ".api.onfinality.io/" ++ path ++ slash)%string.
Proof.
  unfold resolveRpcUrl, replaceWhole. intros Hch.
  destruct (matchOnfinality "public-ws" u) as [g|] eqn:E1.
  - apply matchOnfinality_shape in E1 as (slash & Hne & Hg & Hs & Hu).
    exists g, "public-ws"%string, slash. auto 6.
  - destruct (matchOnfinality "rpc" u) as [g|] eqn:E2; [|congruence].
    apply matchOnfinality_shape in E2 as (slash & Hne & Hg & Hs & Hu).
    exists g, "rpc"%string, slash. auto 6.
Qed.

Lemma resolveRpcUrl_only_onfinality_changes_witness :
  exists n path slash, n <> EmptyString /\ forallChars inClassAz n = true /\
    (path = "public-ws" \/ path = "rpc")%string /\ (slash = "" \/ slash = "/")%string /\
    "https://kusama.api.onfinality.io/rpc"%string =
      ("https://" ++ n ++ ".api.onfinality.io/" ++ path ++ slash)%string.
Proof.
  apply (resolveRpcUrl_only_onfinality_changes "K3y" "https://kusama.api.onfinality.io/rpc").
  vm_compute. discriminate.
Defined.

(** X15: resolveRpcUrl is idempotent: applying it to its own result
    changes nothing, for any key. *)
Lemma resolveRpcUrl_idempotent key u :
  resolveRpcUrl key (resolveRpcUrl key u) = resolveRpcUrl key u.
Proof.
  unfold resolveRpcUrl at 2 3, replaceWhole.
  destruct (matchOnfinality "public-ws" u) as [g|] eqn:E1.
  - apply matchOnfinality_spec in E1 as (Hne & Hg & _).
    rewrite getSubstitution_ws.
    destruct (matchOnfinality_resolved g (getSubstitution u g key) "rpc" Hne Hg (or_intror eq_refl))
      as [-> _].
    destruct (matchOnfinality_resolved g (getSubstitution u g key) "public-ws" Hne Hg (or_introl eq_refl))
      as [Hw _].
    destruct (matchOnfinality_resolved g (getSubstitution u g key) "rpc" Hne Hg (or_intror eq_refl))
      as [Hr _].
    unfold resolveRpcUrl, replaceWhole. rewrite Hw, Hr. reflexivity.
  - destruct (matchOnfinality "rpc" u) as [g|] eqn:E2.
    + apply matchOnfinality_spec in E2 as (Hne & Hg & _).
      rewrite getSubstitution_rpc.
      destruct (matchOnfinality_resolved g (getSubstitution u g key) "public-ws" Hne Hg (or_introl eq_refl))
        as [_ Hw].
      destruct (matchOnfinality_resolved g (getSubstitution u g key) "rpc" Hne Hg (or_intror eq_refl))
        as [_ Hr].
      unfold resolveRpcUrl, replaceWhole. rewrite Hw, Hr. reflexivity.
    + unfold resolveRpcUrl, replaceWhole. rewrite E1, E2. reflexivity.
Qed.
